(** * git_tool: commit ingestion, cache and queries

    A shallow embedding of [git_tool.py].  Python text is a list of
    Unicode code points, the bytes a child process writes are a list of
    bytes, exceptions are an explicit result type, and the two pieces of
    the outside world the program touches (the cache file and the
    processes it spawns) are threaded through a small state monad. *)

From Stdlib Require Import ZArith NArith QArith Lia.
From Stdlib.Strings Require Import String Ascii Byte.
From stdpp Require Import base option list.

Local Open Scope N_scope.

(** ** Python text *)

Abbreviation pystr := (list N).

(** A literal of the source, as code points. *)
Definition py (s : string) : pystr :=
  List.map N_of_ascii (list_ascii_of_string s).

Definition DQUOTE : N := 34.
Definition NEWLINE : N := 10.
Definition SLASH : N := 47.

(** [str.isspace] of one code point (CPython's [_PyUnicode_IsWhitespace]). *)
Definition isspace (c : N) : bool :=
  ((9 <=? c) && (c <=? 13)) || ((28 <=? c) && (c <=? 32))
  || (c =? 133) || (c =? 160) || (c =? 5760)
  || ((8192 <=? c) && (c <=? 8202))
  || (c =? 8232) || (c =? 8233) || (c =? 8239) || (c =? 8287) || (c =? 12288).

Fixpoint drop_while {A} (p : A -> bool) (l : list A) : list A :=
  match l with
  | [] => []
  | x :: r => if p x then drop_while p r else l
  end.

(** [s.strip(chars)] for the set of code points accepted by [p]. *)
Definition strip_by (p : N -> bool) (s : pystr) : pystr :=
  rev (drop_while p (rev (drop_while p s))).

(** [s.strip()] *)
Definition strip (s : pystr) : pystr := strip_by isspace s.

(** [s.split(sep)] for a separator of one code point: empty fields are
    kept and the result always has at least one element. *)
Fixpoint split_on (sep : N) (s : pystr) : list pystr :=
  match s with
  | [] => [[]]
  | c :: r =>
      if c =? sep then [] :: split_on sep r
      else match split_on sep r with
           | h :: t => (c :: h) :: t
           | [] => [[c]]
           end
  end.

(** [s.split()]: maximal runs of non-whitespace; [acc] is the run being
    read, in reverse. *)
Fixpoint split_ws_go (acc : pystr) (s : pystr) : list pystr :=
  match s with
  | [] => match acc with [] => [] | _ => [rev acc] end
  | c :: r =>
      if isspace c
      then match acc with
           | [] => split_ws_go [] r
           | _ => rev acc :: split_ws_go [] r
           end
      else split_ws_go (c :: acc) r
  end.

Definition split_ws (s : pystr) : list pystr := split_ws_go [] s.

(** [sep.join(parts)] *)
Fixpoint join (sep : pystr) (parts : list pystr) : pystr :=
  match parts with
  | [] => []
  | [p] => p
  | p :: r => p ++ sep ++ join sep r
  end.

Fixpoint pystr_eqb (a b : pystr) : bool :=
  match a, b with
  | [], [] => true
  | x :: a', y :: b' => (x =? y) && pystr_eqb a' b'
  | _, _ => false
  end.

Fixpoint startswith (pre s : pystr) : bool :=
  match pre, s with
  | [], _ => true
  | x :: pre', y :: s' => (x =? y) && startswith pre' s'
  | _ :: _, [] => false
  end.

(** [s.endswith(suf)] *)
Definition endswith (s suf : pystr) : bool := startswith (rev suf) (rev s).

(** [sub in s] *)
Fixpoint contains (sub s : pystr) : bool :=
  startswith sub s ||
  match s with
  | [] => false
  | _ :: r => contains sub r
  end.

(** ** Bytes and [bytes.decode()] (UTF-8, strict) *)

Definition is_cont (b : N) : bool := (128 <=? b) && (b <=? 191).

Definition in_range (lo hi b : N) : bool := (lo <=? b) && (b <=? hi).

(** Bounds of the second byte of a three-byte and of a four-byte
    sequence: they exclude overlong forms, surrogates and code points
    above U+10FFFF. *)
Definition second3 (b0 : N) : N * N :=
  if b0 =? 224 then (160, 191) else if b0 =? 237 then (128, 159) else (128, 191).

Definition second4 (b0 : N) : N * N :=
  if b0 =? 240 then (144, 191) else if b0 =? 244 then (128, 143) else (128, 191).

Fixpoint utf8_decode (bs : list byte) : option pystr :=
  match bs with
  | [] => Some []
  | x0 :: r0 =>
      let b0 := Byte.to_N x0 in
      if b0 <? 128 then cons b0 <$> utf8_decode r0
      else if in_range 194 223 b0 then
        match r0 with
        | x1 :: r1 =>
            let b1 := Byte.to_N x1 in
            if is_cont b1
            then cons ((b0 - 192) * 64 + (b1 - 128)) <$> utf8_decode r1
            else None
        | _ => None
        end
      else if in_range 224 239 b0 then
        match r0 with
        | x1 :: x2 :: r2 =>
            let b1 := Byte.to_N x1 in
            let b2 := Byte.to_N x2 in
            if in_range (fst (second3 b0)) (snd (second3 b0)) b1 && is_cont b2
            then cons ((b0 - 224) * 4096 + (b1 - 128) * 64 + (b2 - 128))
                   <$> utf8_decode r2
            else None
        | _ => None
        end
      else if in_range 240 244 b0 then
        match r0 with
        | x1 :: x2 :: x3 :: r3 =>
            let b1 := Byte.to_N x1 in
            let b2 := Byte.to_N x2 in
            let b3 := Byte.to_N x3 in
            if in_range (fst (second4 b0)) (snd (second4 b0)) b1
               && is_cont b2 && is_cont b3
            then cons ((b0 - 240) * 262144 + (b1 - 128) * 4096
                       + (b2 - 128) * 64 + (b3 - 128))
                   <$> utf8_decode r3
            else None
        | _ => None
        end
      else None
  end.

(** The bytes of an ASCII literal. *)
Definition ascii_bytes (s : string) : list byte := list_byte_of_string s.

Local Close Scope N_scope.
Local Open Scope Z_scope.

(** ** Exceptions *)

Inductive exn : Set :=
| FileNotFoundError
| UnicodeDecodeError
| ParserError
| UnpicklingError
| StatisticsError
| TypeError
| AttributeError
| ValueError
| OverflowError
| TimeoutError.

Inductive result (A : Type) : Type :=
| Ok (a : A)
| Raise (e : exn).
Arguments Ok {A} a.
Arguments Raise {A} e.

Definition bind {A B} (r : result A) (k : A -> result B) : result B :=
  match r with
  | Ok a => k a
  | Raise e => Raise e
  end.

Notation "'let!' x ':=' e 'in' k" := (bind e (fun x => k))
  (at level 10, x name, e at level 200, k at level 200).

(** [list(map(f, l))] for an [f] that may raise: the first exception in
    list order is the one raised. *)
Fixpoint map_r {A B} (f : A -> result B) (l : list A) : result (list B) :=
  match l with
  | [] => Ok []
  | x :: r =>
      let! y := f x in
      let! ys := map_r f r in
      Ok (y :: ys)
  end.

(** ** Dates ([datetime.date], [datetime.datetime]) *)

Record date : Set := { year : Z; month : Z; day : Z }.

Record datetime : Set := {
  dt_date : date;          (* [.date()], also [.year] *)
  dt_hour : Z;
  dt_minute : Z;
  dt_second : Z;
  dt_utcoffset : Z         (* seconds east of UTC *)
}.

Definition MINYEAR : Z := 1.
Definition MAXYEAR : Z := 9999.

Definition is_leap (y : Z) : bool :=
  (y mod 4 =? 0) && (negb (y mod 100 =? 0) || (y mod 400 =? 0)).

Definition days_in_month (y m : Z) : Z :=
  if m =? 2 then (if is_leap y then 29 else 28)
  else if (m =? 4) || (m =? 6) || (m =? 9) || (m =? 11) then 30
  else 31.

Definition days_before_year (y0 : Z) : Z :=
  let y := y0 - 1 in
  y * 365 + y / 4 - y / 100 + y / 400.

Definition days_before_month (y m : Z) : Z :=
  nth (Z.to_nat m) [0; 0; 31; 59; 90; 120; 151; 181; 212; 243; 273; 304; 334] 0
  + (if (2 <? m) && is_leap y then 1 else 0).

Definition ymd2ord (y m d : Z) : Z :=
  days_before_year y + days_before_month y m + d.

Definition toordinal (d : date) : Z := ymd2ord (year d) (month d) (day d).

(** The arguments of [date] are read as C [int]s. *)
Definition fits_int (z : Z) : bool :=
  (-2147483648 <=? z) && (z <=? 2147483647).

(** [date(y, m, d)]: an argument that does not fit a C [int] is an
    [OverflowError]; then the constructor checks its fields. *)
Definition mkdate (y m d : Z) : result date :=
  if negb (fits_int y && fits_int m && fits_int d) then Raise OverflowError
  else if (MINYEAR <=? y) && (y <=? MAXYEAR) && (1 <=? m) && (m <=? 12)
          && (1 <=? d) && (d <=? days_in_month y m)
  then Ok {| year := y; month := m; day := d |}
  else Raise ValueError.

(** Dates compare as the tuples (year, month, day). *)
Definition date_le (a b : date) : bool :=
  (year a <? year b)
  || ((year a =? year b)
      && ((month a <? month b) || ((month a =? month b) && (day a <=? day b)))).

Definition date_lt (a b : date) : bool :=
  (year a <? year b)
  || ((year a =? year b)
      && ((month a <? month b) || ((month a =? month b) && (day a <? day b)))).

Definition isoweek1monday (y : Z) : Z :=
  let firstday := ymd2ord y 1 1 in
  let firstweekday := (firstday + 6) mod 7 in
  let week1monday := firstday - firstweekday in
  if 3 <? firstweekday then week1monday + 7 else week1monday.

(** [d.isocalendar()] as (ISO year, ISO week, ISO weekday). *)
Definition isocalendar (d : date) : Z * Z * Z :=
  let y := year d in
  let week1monday := isoweek1monday y in
  let today := toordinal d in
  let week := (today - week1monday) / 7 in
  let wday := (today - week1monday) mod 7 in
  if week <? 0 then
    let week1monday' := isoweek1monday (y - 1) in
    (y - 1, (today - week1monday') / 7 + 1, (today - week1monday') mod 7 + 1)
  else if (52 <=? week) && (isoweek1monday (y + 1) <=? today) then
    (y + 1, 1, wday + 1)
  else (y, week + 1, wday + 1).

(** ** The commit record *)

(** What an attribute set through [first] can hold: [None] until the
    phase ran, the first output line once it did, and the (empty) list
    itself in [first]'s fall-through branch. *)
Inductive attr (A : Type) : Type :=
| Unset
| One (a : A)
| Many (l : list A).
Arguments Unset {A}.
Arguments One {A} a.
Arguments Many {A} l.

Record Commit : Type := {
  cid : pystr;
  created : attr datetime;
  author : attr pystr;
  message : option pystr;
  files : list pystr
}.

(** [Commit(cid=commit_id)] with the dataclass defaults. *)
Definition new_commit (commit_id : pystr) : Commit :=
  {| cid := commit_id; created := Unset; author := Unset;
     message := None; files := [] |}.

Definition set_files (v : list pystr) (c : Commit) : Commit :=
  {| cid := cid c; created := created c; author := author c;
     message := message c; files := v |}.
Definition set_author (v : attr pystr) (c : Commit) : Commit :=
  {| cid := cid c; created := created c; author := v;
     message := message c; files := files c |}.
Definition set_created (v : attr datetime) (c : Commit) : Commit :=
  {| cid := cid c; created := v; author := author c;
     message := message c; files := files c |}.
Definition set_message (v : pystr) (c : Commit) : Commit :=
  {| cid := cid c; created := created c; author := author c;
     message := Some v; files := files c |}.

(** ** Module-level helpers of [git_tool.py] *)

Definition CMD_GET_ALL_COMMIT_IDS : pystr :=
  py "git log --pretty=format:" ++ [DQUOTE] ++ py "%h" ++ [DQUOTE]
  ++ py " --no-merges".
Definition CMD_GET_COMMIT_FILES (commit : Commit) : pystr :=
  py "git diff-tree --no-commit-id --name-only -r " ++ cid commit.
Definition CMD_GET_COMMIT_AUTHOR (commit : Commit) : pystr :=
  py "git show -s --format=" ++ [DQUOTE] ++ py "%ae" ++ [DQUOTE]
  ++ py " " ++ cid commit.
Definition CMD_GET_COMMIT_DATE (commit : Commit) : pystr :=
  py "git show -s --format=" ++ [DQUOTE] ++ py "%ci" ++ [DQUOTE]
  ++ py " " ++ cid commit.
Definition CMD_GET_COMMIT_MESSAGE (commit : Commit) : pystr :=
  py "git show -s --format=" ++ [DQUOTE] ++ py "%B" ++ [DQUOTE]
  ++ py " " ++ cid commit.

Definition chomp_quotes (line : pystr) : pystr :=
  strip_by (N.eqb DQUOTE) line.

(** [obj[0] if isinstance(obj, list) and len(obj) > 0 else obj], on the
    list [run_cmd] hands to it. *)
Definition first {A} (obj : list A) : attr A :=
  match obj with
  | x :: _ => One x
  | [] => Many obj
  end.

Definition get_week_number (date_obj : date) : Z :=
  snd (fst (isocalendar date_obj)).

(** ** The outside world *)

(** The cache file at [PICKLE_PATH] ([None]: no such file) and the number
    of child processes spawned so far. *)
Record world : Set := {
  artifact : option (list byte);
  spawned : nat
}.

(** What [Popen(...).communicate()] leaves behind. *)
Record completed : Set := {
  returncode : Z;
  stdout : list byte
}.

Definition M (A : Type) : Type := world -> result A * world.

Definition ret {A} (a : A) : M A := fun w => (Ok a, w).

Definition raise {A} (e : exn) : M A := fun w => (Raise e, w).

Definition bindM {A B} (m : M A) (k : A -> M B) : M B :=
  fun w =>
    match m w with
    | (Ok a, w') => k a w'
    | (Raise e, w') => (Raise e, w')
    end.

Notation "'let*' x ':=' e 'in' k" := (bindM e (fun x => k))
  (at level 10, x name, e at level 200, k at level 200).

Definition spawn (w : world) : world :=
  {| artifact := artifact w; spawned := S (spawned w) |}.

(** [os.remove(PICKLE_PATH)] *)
Definition os_remove : M unit :=
  fun w =>
    match artifact w with
    | Some _ => (Ok tt, {| artifact := None; spawned := spawned w |})
    | None => (Raise FileNotFoundError, w)
    end.

(** [os.path.isfile(PICKLE_PATH)] *)
Definition isfile : M bool := fun w => (Ok (bool_decide (is_Some (artifact w))), w).

(** [open(PICKLE_PATH, "rb").read()] *)
Definition read_file : M (list byte) :=
  fun w =>
    match artifact w with
    | Some bs => (Ok bs, w)
    | None => (Raise FileNotFoundError, w)
    end.

(** [open(PICKLE_PATH, "wb").write(bs)]: the file is created or truncated. *)
Definition write_file (bs : list byte) : M unit :=
  fun w => (Ok tt, {| artifact := Some bs; spawned := spawned w |}).

(** ** The process runner *)

(** The first argument of [run_cmd]: a command line, or a function from
    the commit to one. *)
Inductive cmd_t : Type :=
| Fixed (s : pystr)
| PerCommit (f : Commit -> pystr).

(** [cmd.split()], after calling [cmd] on [args] when it is callable; [args] is
    empty or the one commit the pool passes. *)
Definition argv (cmd : cmd_t) (args : option Commit) : result (list pystr) :=
  match cmd, args with
  | Fixed s, _ => Ok (split_ws s)
  | PerCommit f, Some commit => Ok (split_ws (f commit))
  | PerCommit f, None => Raise TypeError
  end.

(** The value of [preprocess_line]: [None] is [nostage], one callable
    [f] is [stage f nostage], and a list of callables is the chain of
    its elements; each stage maps over the whole list before the next
    one starts. *)
Inductive stages : Type -> Type -> Type :=
| nostage {A} : stages A A
| stage {A B C} (f : A -> result B) (rest : stages B C) : stages A C.

Fixpoint run_stages {A B} (s : stages A B) : list A -> result (list B) :=
  match s in stages A B return list A -> result (list B) with
  | nostage => fun out => Ok out
  | stage f rest =>
      fun out =>
        let! out' := map_r f out in
        run_stages rest out'
  end.

(** A stage that cannot raise. *)
Definition pure_stage {A B} (f : A -> B) : A -> result B := fun x => Ok (f x).

Section Program.

(** The version-control system: what a child process started with the
    given argument vector exits with and prints. *)
Variable exec : list pystr -> completed.

(** [dateutil.parser.parse]; [None] stands for its [ParserError]. *)
Variable parse : pystr -> option datetime.

(** [pickle.dumps] and [pickle.loads] on a list of commits; [None] is a
    failed load. *)
Variable dumps : list Commit -> list byte.
Variable loads : list byte -> option (list Commit).

(** The scheduler of the worker pool: [pick phase k] chooses which of the
    tasks still running is the [k]-th to complete in the given phase. *)
Variable pick : nat -> nat -> nat.

Definition parse_line (line : pystr) : result datetime :=
  match parse line with
  | Some d => Ok d
  | None => Raise ParserError
  end.

(** [run_cmd] with its keyword arguments [preprocess_line] and [preprocess_whole];
    an absent [preprocess_whole] is the identity.  The exit status of the
    child is not looked at. *)
Definition run_cmd {A B} (cmd : cmd_t) (args : option Commit)
    (preprocess_line : stages pystr A) (preprocess_whole : list A -> B) : M B :=
  fun w =>
    match argv cmd args with
    | Raise e => (Raise e, w)
    | Ok av =>
        let p := exec av in
        let w' := spawn w in
        match utf8_decode (stdout p) with
        | None => (Raise UnicodeDecodeError, w')
        | Some text =>
            (let! out := run_stages preprocess_line
                           (split_on NEWLINE (strip text)) in
             Ok (preprocess_whole out), w')
        end
    end.

(** What [run_cmd] returns, without the world: it depends on the world
    only through [exec]. *)
Definition run_cmd_value {A B} (cmd : cmd_t) (args : option Commit)
    (preprocess_line : stages pystr A) (preprocess_whole : list A -> B)
    : result B :=
  let! av := argv cmd args in
  match utf8_decode (stdout (exec av)) with
  | None => Raise UnicodeDecodeError
  | Some text =>
      let! out := run_stages preprocess_line (split_on NEWLINE (strip text)) in
      Ok (preprocess_whole out)
  end.

(** The lines [run_cmd] reads from a command line, when they decode. *)
Definition output (cmdline : pystr) : option (list pystr) :=
  match utf8_decode (stdout (exec (split_ws cmdline))) with
  | Some text => Some (split_on NEWLINE (strip text))
  | None => None
  end.

(** *** The worker pool *)

(** The order in which the tasks of one [pool.map] call complete: at each
    step the scheduler names one of the tasks still running. *)
Fixpoint completion_order (choose : nat -> nat) (k : nat) (running : list nat)
    (fuel : nat) : list nat :=
  match fuel with
  | O => []
  | S fuel' =>
      match running !! (choose k mod length running)%nat with
      | Some i =>
          i :: completion_order choose (S k)
                 (delete (choose k mod length running)%nat running) fuel'
      | None => []
      end
  end.

(** The pool's result object: one slot per submitted item, filled as its
    task completes, and the first exception a task raised. *)
Record map_result (B : Type) : Type := {
  slots : list (option B);
  failure : option exn
}.
Arguments slots {B} _.
Arguments failure {B} _.

(** A task reports back: its value goes to the slot of its submission
    index; only the first exception is kept, and after it values are
    dropped. *)
Definition mr_set {B} (i : nat) (r : result B) (mr : map_result B) : map_result B :=
  match r, failure mr with
  | Ok v, None => {| slots := <[i := Some v]> (slots mr); failure := None |}
  | Raise e, None => {| slots := slots mr; failure := Some e |}
  | _, Some _ => mr
  end.

Fixpoint collect {B} (l : list (option B)) : option (list B) :=
  match l with
  | [] => Some []
  | Some v :: r => cons v <$> collect r
  | None :: _ => None
  end.

(** Reading the result once the pool is done: the stored exception is
    raised again, otherwise the slots are the list returned.  A slot left
    empty means the result is not ready. *)
Definition mr_get {B} (mr : map_result B) : result (list B) :=
  match failure mr with
  | Some e => Raise e
  | None =>
      match collect (slots mr) with
      | Some vs => Ok vs
      | None => Raise TimeoutError
      end
  end.

Fixpoint run_tasks {A B} (task : A -> M B) (items : list A) (order : list nat)
    (mr : map_result B) : world -> map_result B * world :=
  match order with
  | [] => fun w => (mr, w)
  | i :: rest =>
      fun w =>
        match items !! i with
        | Some x =>
            let (r, w') := task x w in
            run_tasks task items rest (mr_set i r mr) w'
        | None => run_tasks task items rest mr w
        end
  end.

(** [pool.map(task, items)] in fan-out phase number [phase]: every item
    is one task, tasks complete in the order the scheduler decides, and
    the list returned is in submission order.  The number of workers
    ([CPU_COUNT]) limits how many tasks run at a time, not the order in
    which they finish, so it does not appear. *)
Definition pool_map {A B} (phase : nat) (task : A -> M B) (items : list A)
    : M (list B) :=
  fun w =>
    let n := length items in
    let order := completion_order (pick phase) 0 (seq 0 n) n in
    let (mr, w') :=
      run_tasks task items order
        {| slots := replicate n None; failure := None |} w in
    (mr_get mr, w').

(** [for v, commit in zip(result, commits): commit.field = v] *)
Fixpoint assign {B} (set : B -> Commit -> Commit) (result : list B)
    (commits : list Commit) : list Commit :=
  match result, commits with
  | v :: result', commit :: commits' =>
      set v commit :: assign set result' commits'
  | _, _ => commits
  end.

(** One fan-out phase: the pool maps the task over the commits and the
    results are written back by position. *)
Definition fan_out {B} (phase : nat) (task : Commit -> M B)
    (set : B -> Commit -> Commit) (commits : list Commit) : M (list Commit) :=
  let* result := pool_map phase task commits in
  ret (assign set result commits).

(** The same phase without a pool: one commit after the other. *)
Fixpoint sequential {B} (task : Commit -> M B) (set : B -> Commit -> Commit)
    (commits : list Commit) : M (list Commit) :=
  match commits with
  | [] => ret []
  | commit :: commits' =>
      let* v := task commit in
      let* rest := sequential task set commits' in
      ret (set v commit :: rest)
  end.

(** *** The four tasks *)

Definition files_task (c : Commit) : M (list pystr) :=
  run_cmd (PerCommit CMD_GET_COMMIT_FILES) (Some c) nostage id.

Definition author_task (c : Commit) : M (attr pystr) :=
  run_cmd (PerCommit CMD_GET_COMMIT_AUTHOR) (Some c)
    (stage (pure_stage chomp_quotes) nostage) first.

Definition date_task (c : Commit) : M (attr datetime) :=
  run_cmd (PerCommit CMD_GET_COMMIT_DATE) (Some c)
    (stage (pure_stage chomp_quotes) (stage parse_line nostage)) first.

Definition message_task (c : Commit) : M (list pystr) :=
  run_cmd (PerCommit CMD_GET_COMMIT_MESSAGE) (Some c)
    (stage (pure_stage chomp_quotes) nostage) id.

(** [commit.message = newline.join(message).strip()] *)
Definition set_message_lines (lines : list pystr) (c : Commit) : Commit :=
  set_message (strip (join [NEWLINE] lines)) c.

(** *** The cache-aware build *)

(** [with open(PICKLE_PATH, mode=wb) as f: pickle.dump(commits, f)] *)
Definition dump_store (commits : list Commit) : M unit :=
  write_file (dumps commits).

(** [with open(PICKLE_PATH, mode=rb) as f: commits = pickle.load(f)] *)
Definition load_store : M (list Commit) :=
  let* bs := read_file in
  match loads bs with
  | Some commits => ret commits
  | None => raise UnpicklingError
  end.

(** The [else] branch of [get_or_create_commits]: enumeration, the four
    fan-out phases, and the dump.  The change of working directory around
    it is not part of the model: [exec] already answers for the
    repository. *)
Definition ingest : M (list Commit) :=
  let* ids := run_cmd (Fixed CMD_GET_ALL_COMMIT_IDS) None
                (stage (pure_stage chomp_quotes) nostage) id in
  let commits := map new_commit ids in
  let* commits := fan_out 0 files_task set_files commits in
  let* commits := fan_out 1 author_task set_author commits in
  let* commits := fan_out 2 date_task set_created commits in
  let* commits := fan_out 3 message_task set_message_lines commits in
  let* _ := dump_store commits in
  ret commits.

Definition get_or_create_commits (force : bool) : M (list Commit) :=
  let* _ := (if force then os_remove else ret tt) in
  let* cached := isfile in
  if (cached : bool) then load_store else ingest.

(** *** Ingestion one process after the other, as a value

    The reference the pool is compared with: the same commands, run for
    one commit after the other, and no world. *)

Definition ids_value : result (list pystr) :=
  run_cmd_value (Fixed CMD_GET_ALL_COMMIT_IDS) None
    (stage (pure_stage chomp_quotes) nostage) id.

Definition files_value (c : Commit) : result (list pystr) :=
  run_cmd_value (PerCommit CMD_GET_COMMIT_FILES) (Some c) nostage id.

Definition author_value (c : Commit) : result (attr pystr) :=
  run_cmd_value (PerCommit CMD_GET_COMMIT_AUTHOR) (Some c)
    (stage (pure_stage chomp_quotes) nostage) first.

Definition date_value (c : Commit) : result (attr datetime) :=
  run_cmd_value (PerCommit CMD_GET_COMMIT_DATE) (Some c)
    (stage (pure_stage chomp_quotes) (stage parse_line nostage)) first.

Definition message_value (c : Commit) : result (list pystr) :=
  run_cmd_value (PerCommit CMD_GET_COMMIT_MESSAGE) (Some c)
    (stage (pure_stage chomp_quotes) nostage) id.

Definition phase_value {B} (val : Commit -> result B)
    (set : B -> Commit -> Commit) (commits : list Commit)
    : result (list Commit) :=
  let! vs := map_r val commits in
  Ok (assign set vs commits).

Definition ingest_value : result (list Commit) :=
  let! ids := ids_value in
  let commits := map new_commit ids in
  let! commits := phase_value files_value set_files commits in
  let! commits := phase_value author_value set_author commits in
  let! commits := phase_value date_value set_created commits in
  let! commits := phase_value message_value set_message_lines commits in
  Ok commits.

End Program.

Arguments slots {B} _.
Arguments failure {B} _.

(** ** The query functions *)

(** [c.created.date()]: only a datetime has the method. *)
Definition created_date (c : Commit) : result date :=
  match created c with
  | One d => Ok (dt_date d)
  | _ => Raise AttributeError
  end.

(** [whole_year(year)]: the chained comparison builds the upper bound
    only when the lower one holds. *)
Definition whole_year (y : Z) (c : Commit) : result bool :=
  let! lo := mkdate y 1 1 in
  let! d := created_date c in
  if date_le lo d then
    let! hi := mkdate (y + 1) 1 1 in
    Ok (date_lt d hi)
  else Ok false.

(** [author == c.author] for an author string taken from the set. *)
Definition author_is (a : pystr) (c : Commit) : bool :=
  match author c with
  | One s => pystr_eqb a s
  | _ => false
  end.

Definition only_authors (authors : list pystr) (c : Commit) : result bool :=
  Ok (existsb (fun a => author_is a c) authors).

(** One commit against the stacked filters: a later predicate only sees
    what the earlier ones let through. *)
Fixpoint passes (fns : list (Commit -> result bool)) (c : Commit) : result bool :=
  match fns with
  | [] => Ok true
  | fn :: rest =>
      let! b := fn c in
      if (b : bool) then passes rest c else Ok false
  end.

Fixpoint filter_r {A} (p : A -> result bool) (l : list A) : result (list A) :=
  match l with
  | [] => Ok []
  | x :: r =>
      let! b := p x in
      let! r' := filter_r p r in
      Ok (if (b : bool) then x :: r' else r')
  end.

(** [list(iterate_over(commits, fn1, fn2, ...))]: the filters are lazy,
    so each commit runs through them in turn. *)
Definition iterate_over (commits : list Commit)
    (fns : list (Commit -> result bool)) : result (list Commit) :=
  filter_r (passes fns) commits.

Fixpoint add_once (a : pystr) (seen : list pystr) : list pystr :=
  match seen with
  | [] => [a]
  | b :: r => if pystr_eqb a b then seen else b :: add_once a r
  end.

(** [set(c.author for c in commits)] followed by the substring test of
    every element: a list is not hashable and [None] has no members, both
    are a [TypeError].  The iteration order of the set is not specified;
    the order of first occurrence stands for it. *)
Fixpoint author_set (commits : list Commit) (seen : list pystr)
    (none_seen : bool) : result (list pystr * bool) :=
  match commits with
  | [] => Ok (seen, none_seen)
  | c :: r =>
      match author c with
      | One s => author_set r (add_once s seen) none_seen
      | Unset => author_set r seen true
      | Many _ => Raise TypeError
      end
  end.

Definition get_authors (commits : list Commit) (substring : pystr)
    : result (list pystr) :=
  let! s := author_set commits [] false in
  if snd s then Raise TypeError
  else Ok (List.filter (contains substring) (fst s)).

(** The [defaultdict(list)] of [group_by], in insertion order. *)
Fixpoint dd_append {K} (eqb : K -> K -> bool) (key : K) (commit : Commit)
    (dd : list (K * list Commit)) : list (K * list Commit) :=
  match dd with
  | [] => [(key, [commit])]
  | (k, v) :: r =>
      if eqb k key then (k, v ++ [commit]) :: r
      else (k, v) :: dd_append eqb key commit r
  end.

Fixpoint group_by_from {K} (eqb : K -> K -> bool) (get_key : Commit -> result K)
    (commits : list Commit) (dd : list (K * list Commit))
    : result (list (K * list Commit)) :=
  match commits with
  | [] => Ok dd
  | commit :: r =>
      let! key := get_key commit in
      group_by_from eqb get_key r (dd_append eqb key commit dd)
  end.

(** [group_by(commits, fn=get_key)]; [prop=name] is the same with the
    attribute reader for [get_key]. *)
Definition group_by {K} (eqb : K -> K -> bool) (get_key : Commit -> result K)
    (commits : list Commit) : result (list (K * list Commit)) :=
  group_by_from eqb get_key commits [].

(** [counter.update({key: n})] *)
Fixpoint counter_update {K} (eqb : K -> K -> bool) (key : K) (n : Z)
    (counter : list (K * Z)) : list (K * Z) :=
  match counter with
  | [] => [(key, n)]
  | (k, v) :: r =>
      if eqb k key then (k, v + n) :: r
      else (k, v) :: counter_update eqb key n r
  end.

Fixpoint do_count_from {K K'} (eqb : K' -> K' -> bool) (fn : K -> K')
    (grouped : list (K * list Commit)) (counter : list (K' * Z))
    : list (K' * Z) :=
  match grouped with
  | [] => counter
  | (key, commits) :: r =>
      do_count_from eqb fn r
        (counter_update eqb (fn key) (Z.of_nat (length commits)) counter)
  end.

Definition do_count {K K'} (eqb : K' -> K' -> bool) (fn : K -> K')
    (grouped : list (K * list Commit)) : list (K' * Z) :=
  do_count_from eqb fn grouped [].

Definition values {K} (counter : list (K * Z)) : list Z := map snd counter.

Definition sum_Z (l : list Z) : Z := fold_right Z.add 0 l.

(** [statistics.mean] of integers: the exact quotient, and an error on no
    data.  (Python hands a quotient that is not whole back as the nearest
    float; with at most 53 weekly counts that float truncates to the same
    integer for any store below 2^47 commits, so the float is left out.) *)
Definition mean (data : list Z) : result Q :=
  match data with
  | [] => Raise StatisticsError
  | _ => Ok (Qmake (sum_Z data) (Pos.of_nat (length data)))
  end.

(** [int(x)]: truncation towards zero. *)
Definition int (x : Q) : Z := Z.quot (Qnum x) (Zpos (Qden x)).

Definition week_key (c : Commit) : result Z :=
  let! d := created_date c in
  Ok (get_week_number d).

(** [get_average_count_by_author_in_year]; the value is the integer the
    function prints. *)
Definition get_average_count_by_author_in_year (commits : list Commit)
    (substring : pystr) (y : Z) : result Z :=
  let! authors := get_authors commits substring in
  let! filtered_commits :=
    iterate_over commits [whole_year y; only_authors authors] in
  let! by_week_number := group_by Z.eqb week_key filtered_commits in
  let by_week_number := do_count Z.eqb id by_week_number in
  let! m := mean (values by_week_number) in
  Ok (int m).

(** [os.path.basename] *)
Definition basename (p : pystr) : pystr := List.last (split_on SLASH p) [].

(** The two filters of [main] that look at file names. *)
Definition edited_specific_extension (ext : pystr) (c : Commit) : bool :=
  existsb (fun file => endswith (basename file) (py "." ++ ext)) (files c).

Definition edited_file_named (filename : pystr) (c : Commit) : bool :=
  existsb (fun path => endswith path filename) (files c).

(** ** Instances of the external parts *)

(** *** A parser for the committer-date format of git
    ([2023-12-01 10:00:00 +0100]), one of the forms [dateutil] reads *)

Fixpoint number_from (acc : Z) (s : pystr) : option Z :=
  match s with
  | [] => Some acc
  | c :: r =>
      if in_range 48 57 c
      then number_from (acc * 10 + Z.of_N (c - 48)) r
      else None
  end.

Definition number (s : pystr) : option Z :=
  match s with
  | [] => None
  | _ => number_from 0 s
  end.

Definition parse_offset (s : pystr) : option Z :=
  match s with
  | [sign; h1; h2; m1; m2] =>
      hh ← number [h1; h2];
      mm ← number [m1; m2];
      if (sign =? 43)%N then Some (hh * 3600 + mm * 60)
      else if (sign =? 45)%N then Some (- (hh * 3600 + mm * 60))
      else None
  | _ => None
  end.

Definition parse_ci (s : pystr) : option datetime :=
  match split_ws s with
  | [d; t; z] =>
      match split_on 45%N d, split_on 58%N t with
      | [ys; ms; ds], [hs; mis; ss] =>
          y ← number ys; m ← number ms; dd ← number ds;
          h ← number hs; mi ← number mis; se ← number ss;
          off ← parse_offset z;
          match mkdate y m dd with
          | Ok dt =>
              if (h <? 24) && (mi <? 60) && (se <? 60)
              then Some {| dt_date := dt; dt_hour := h; dt_minute := mi;
                           dt_second := se; dt_utcoffset := off |}
              else None
          | Raise _ => None
          end
      | _, _ => None
      end
  | _ => None
  end.

(** *** The serializer

    The source hands the list of commits to [pickle.dump] and reads it
    with [pickle.load], a library that is not part of the repository.  The
    format below writes every value self-delimited: a list as its length
    and its elements, a record as its fields in declaration order, an
    optional value behind a tag byte. *)

Definition decoder (A : Type) : Type := list byte -> option (A * list byte).

Definition dret {A} (a : A) : decoder A := fun bs => Some (a, bs).

(** A decoder reads back what its encoder wrote and leaves the rest. *)
Definition decodes {A} (enc : A -> list byte) (dec : decoder A) : Prop :=
  forall a rest, dec (enc a ++ rest) = Some (a, rest).

Definition dbind {A B} (d : decoder A) (k : A -> decoder B) : decoder B :=
  fun bs =>
    match d bs with
    | Some (a, r) => k a r
    | None => None
    end.

(** Numbers are written bit by bit, least significant bit first, and end
    with a stop byte. *)
Fixpoint enc_pos (p : positive) : list byte :=
  match p with
  | xH => [x02]
  | xO q => x00 :: enc_pos q
  | xI q => x01 :: enc_pos q
  end.

Fixpoint dec_pos (bs : list byte) : option (positive * list byte) :=
  match bs with
  | x02 :: r => Some (xH, r)
  | x00 :: r =>
      match dec_pos r with
      | Some (q, r') => Some (xO q, r')
      | None => None
      end
  | x01 :: r =>
      match dec_pos r with
      | Some (q, r') => Some (xI q, r')
      | None => None
      end
  | _ => None
  end.

Definition enc_N (n : N) : list byte :=
  match n with
  | N0 => [x03]
  | Npos p => x04 :: enc_pos p
  end.
Definition dec_N : decoder N :=
  fun bs =>
    match bs with
    | x03 :: r => Some (N0, r)
    | x04 :: r => dbind dec_pos (fun p => dret (Npos p)) r
    | _ => None
    end.

Definition enc_nat (n : nat) : list byte := enc_N (N.of_nat n).
Definition dec_nat : decoder nat := dbind dec_N (fun n => dret (N.to_nat n)).

Definition enc_Z (z : Z) : list byte :=
  match z with
  | Z0 => [x03]
  | Zpos p => x04 :: enc_pos p
  | Zneg p => x05 :: enc_pos p
  end.
Definition dec_Z : decoder Z :=
  fun bs =>
    match bs with
    | x03 :: r => Some (Z0, r)
    | x04 :: r => dbind dec_pos (fun p => dret (Zpos p)) r
    | x05 :: r => dbind dec_pos (fun p => dret (Zneg p)) r
    | _ => None
    end.

Definition enc_list {A} (encA : A -> list byte) (l : list A) : list byte :=
  enc_nat (length l) ++ concat (map encA l).

Fixpoint dec_seq {A} (decA : decoder A) (n : nat) : decoder (list A) :=
  match n with
  | O => dret []
  | S n' => dbind decA (fun a => dbind (dec_seq decA n') (fun l => dret (a :: l)))
  end.

Definition dec_list {A} (decA : decoder A) : decoder (list A) :=
  dbind dec_nat (dec_seq decA).

Definition enc_option {A} (encA : A -> list byte) (o : option A) : list byte :=
  match o with
  | None => [x00]
  | Some a => x01 :: encA a
  end.
Definition dec_option {A} (decA : decoder A) : decoder (option A) :=
  fun bs =>
    match bs with
    | x00 :: r => Some (None, r)
    | x01 :: r => dbind decA (fun a => dret (Some a)) r
    | _ => None
    end.

Definition enc_attr {A} (encA : A -> list byte) (a : attr A) : list byte :=
  match a with
  | Unset => [x00]
  | One v => x01 :: encA v
  | Many l => x02 :: enc_list encA l
  end.
Definition dec_attr {A} (decA : decoder A) : decoder (attr A) :=
  fun bs =>
    match bs with
    | x00 :: r => Some (Unset, r)
    | x01 :: r => dbind decA (fun v => dret (One v)) r
    | x02 :: r => dbind (dec_list decA) (fun l => dret (Many l)) r
    | _ => None
    end.

Definition enc_str : pystr -> list byte := enc_list enc_N.
Definition dec_str : decoder pystr := dec_list dec_N.

Definition enc_date (d : date) : list byte :=
  enc_Z (year d) ++ enc_Z (month d) ++ enc_Z (day d).
Definition dec_date : decoder date :=
  dbind dec_Z (fun y => dbind dec_Z (fun m => dbind dec_Z (fun d =>
    dret {| year := y; month := m; day := d |}))).

Definition enc_datetime (t : datetime) : list byte :=
  enc_date (dt_date t) ++ enc_Z (dt_hour t) ++ enc_Z (dt_minute t)
  ++ enc_Z (dt_second t) ++ enc_Z (dt_utcoffset t).
Definition dec_datetime : decoder datetime :=
  dbind dec_date (fun d => dbind dec_Z (fun h => dbind dec_Z (fun mi =>
  dbind dec_Z (fun s => dbind dec_Z (fun off =>
    dret {| dt_date := d; dt_hour := h; dt_minute := mi;
            dt_second := s; dt_utcoffset := off |}))))).

Definition enc_commit (c : Commit) : list byte :=
  enc_str (cid c) ++ enc_attr enc_datetime (created c)
  ++ enc_attr enc_str (author c) ++ enc_option enc_str (message c)
  ++ enc_list enc_str (files c).
Definition dec_commit : decoder Commit :=
  dbind dec_str (fun i => dbind (dec_attr dec_datetime) (fun cr =>
  dbind (dec_attr dec_str) (fun au => dbind (dec_option dec_str) (fun me =>
  dbind (dec_list dec_str) (fun fi =>
    dret {| cid := i; created := cr; author := au; message := me;
            files := fi |}))))).

(** Modelled from the spec: the serializer of the Commit Store
    ([pickle.dump] in the source, which is not under src/).  The spec asks
    for a versionless binary serialization of the whole structure, the
    list of Commit records with all five fields, in a format left to the
    implementation. *)
Definition codec_dumps (store : list Commit) : list byte :=
  enc_list enc_commit store.

(** Modelled from the spec: the deserializer of the Commit Store
    ([pickle.load] in the source, which is not under src/); a file that is
    not a dump, or has bytes left over, does not load. *)
Definition codec_loads (bs : list byte) : option (list Commit) :=
  match dec_list dec_commit bs with
  | Some (store, []) => Some store
  | _ => None
  end.

(** ** Notions used in the statements *)

(** Two runs agree: both return the same value, or both raise. *)
Definition same_outcome {A} (r1 r2 : result A) : Prop :=
  match r1, r2 with
  | Ok a, Ok b => a = b
  | Raise _, Raise _ => True
  | _, _ => False
  end.

(** The world after [n] more child processes. *)
Definition spawn_n (n : nat) (w : world) : world :=
  {| artifact := artifact w; spawned := (n + spawned w)%nat |}.

(** A commit whose four attributes are what the four commands print for
    its id. *)
Definition ingested (exec : list pystr -> completed)
    (parse : pystr -> option datetime) (c : Commit) : Prop :=
  (exists lines, output exec (CMD_GET_COMMIT_FILES c) = Some lines
     /\ files c = lines)
  /\ (exists lines, output exec (CMD_GET_COMMIT_AUTHOR c) = Some lines
     /\ author c = first (map chomp_quotes lines))
  /\ (exists lines ds, output exec (CMD_GET_COMMIT_DATE c) = Some lines
     /\ map_r (parse_line parse) (map chomp_quotes lines) = Ok ds
     /\ created c = first ds)
  /\ (exists lines, output exec (CMD_GET_COMMIT_MESSAGE c) = Some lines
     /\ message c = Some (strip (join [NEWLINE] (map chomp_quotes lines)))).


(** All four attributes are set. *)
Definition populated (c : Commit) : Prop :=
  (exists t, created c = One t) /\ (exists a, author c = One a)
  /\ (exists m, message c = Some m).

(** The weekly-mean query in the words of its description: the commits
    of the given authors inside the year, the ISO weeks they fall in, and
    the number of commits of each week. *)
Definition in_window (y : Z) (c : Commit) : bool :=
  match created c with
  | One t =>
      date_le {| year := y; month := 1; day := 1 |} (dt_date t)
      && date_lt (dt_date t) {| year := y + 1; month := 1; day := 1 |}
  | _ => false
  end.

Definition by_authors (authors : list pystr) (c : Commit) : bool :=
  existsb (fun a => author_is a c) authors.

Definition matching (commits : list Commit) (authors : list pystr) (y : Z)
    : list Commit :=
  List.filter (fun c => in_window y c && by_authors authors c) commits.

Definition week_of (c : Commit) : Z :=
  match created c with
  | One t => get_week_number (dt_date t)
  | _ => 0
  end.

Fixpoint add_week (k : Z) (ks : list Z) : list Z :=
  match ks with
  | [] => [k]
  | w :: r => if w =? k then ks else w :: add_week k r
  end.

(** The weeks of a list of commits, each once, in order of first
    appearance. *)
Definition weeks_from (l : list Commit) (ks : list Z) : list Z :=
  fold_left (fun ks c => add_week (week_of c) ks) l ks.

Definition weeks (l : list Commit) : list Z := weeks_from l [].

Definition in_week (w : Z) (l : list Commit) : list Commit :=
  List.filter (fun c => week_of c =? w) l.

Definition weekly_counts (l : list Commit) : list Z :=
  map (fun w => Z.of_nat (length (in_week w l))) (weeks l).

(** The exact mean of a non-empty list of counts. *)
Definition exact_mean (counts : list Z) : Q :=
  Qmake (sum_Z counts) (Pos.of_nat (length counts)).

(** The stored message in the words of its description.  A line without
    its quotes: the line is the result between two runs of double quotes,
    and the result has no double quote at either end. *)
Definition without_quotes (line l : pystr) : Prop :=
  (exists q1 q2, line = q1 ++ l ++ q2
     /\ Forall (fun x => x = DQUOTE) q1 /\ Forall (fun x => x = DQUOTE) q2)
  /\ head l <> Some DQUOTE /\ last l <> Some DQUOTE.

(** Lines joined by newlines: every line followed by a newline, without
    the last newline. *)
Definition newline_joined (parts : list pystr) (text : pystr) : Prop :=
  text ++ [NEWLINE] = concat (map (fun l => l ++ [NEWLINE]) parts).

(** A text without its surrounding whitespace: the text is the result
    between two runs of whitespace, and the result has no whitespace at
    either end. *)
Definition trimmed (text m : pystr) : Prop :=
  (exists pre suf, text = pre ++ m ++ suf
     /\ Forall (fun x => isspace x = true) pre
     /\ Forall (fun x => isspace x = true) suf)
  /\ (forall x, head m = Some x -> isspace x = false)
  /\ (forall x, last m = Some x -> isspace x = false).

(** ** Fixtures *)

Definition exit_with (status : Z) (out : list byte) : completed :=
  {| returncode := status; stdout := out |}.

Definition quoted (s : string) : list byte := x22 :: ascii_bytes s ++ [x22].

Definition word (n : nat) (av : list pystr) : pystr := nth n av [].

(** What [git show -s] prints for the newest commit of the fixtures. *)
Definition show_head (fmt : pystr) : list byte :=
  if contains (py "%ae") fmt then quoted "alice@example.org" ++ [x0a]
  else if contains (py "%ci") fmt
  then quoted "2023-01-02 10:00:00 +0100" ++ [x0a]
  else x22 :: ascii_bytes "Fix " ++ quoted "parser"
       ++ [x0a; x0a] ++ ascii_bytes "body" ++ [x0a; x22; x0a].

(** A repository with two commits; the older one is the root commit, for
    which [git diff-tree] prints nothing. *)
Definition git_two (av : list pystr) : completed :=
  if pystr_eqb (word 1 av) (py "log")
  then exit_with 0 (quoted "a1b2c3d" ++ [x0a] ++ quoted "e4f5a6b")
  else if pystr_eqb (word 1 av) (py "diff-tree")
  then if pystr_eqb (word 5 av) (py "a1b2c3d")
       then exit_with 0 (ascii_bytes "src/main.py" ++ [x0a]
                         ++ ascii_bytes "README.txt" ++ [x0a])
       else exit_with 0 []
  else exit_with 0 (show_head (word 3 av)).

(** The same repository at a moment when [git log] fails: it exits with
    status 128 and prints nothing on standard output, [git diff-tree]
    without a commit exits with its usage error, and [git show] without a
    commit shows the newest one. *)
Definition git_log_fails (av : list pystr) : completed :=
  if pystr_eqb (word 1 av) (py "log") then exit_with 128 []
  else if pystr_eqb (word 1 av) (py "diff-tree") then exit_with 129 []
  else exit_with 0 (show_head (word 3 av)).

(** A repository whose author line is not valid UTF-8. *)
Definition git_bad_author (av : list pystr) : completed :=
  if pystr_eqb (word 1 av) (py "show") && contains (py "%ae") (word 3 av)
  then exit_with 0 [x22; xff; xfe; x22; x0a]
  else git_two av.

(** Schedulers: tasks complete in submission order, or the youngest
    running task always completes first. *)
Definition in_order (phase k : nat) : nat := 0%nat.
Definition youngest_first (phase k : nat) : nat := (phase + 7 - k)%nat.

Definition no_cache : world := {| artifact := None; spawned := 0 |}.

Definition commit_at (id who : string) (y m d : Z) : Commit :=
  {| cid := py id;
     created := One {| dt_date := {| year := y; month := m; day := d |};
                       dt_hour := 12; dt_minute := 0; dt_second := 0;
                       dt_utcoffset := 0 |};
     author := One (py who);
     message := Some (py "work");
     files := [py "a.py"] |}.

(** Ten commits: five by alice in ISO week 1 of 2023, three in week 2,
    one in 2022, and one by bob. *)
Definition ten_commits : list Commit :=
  [ commit_at "c0" "alice" 2023 1 11; commit_at "c1" "alice" 2023 1 10;
    commit_at "c2" "alice" 2023 1 9;  commit_at "c3" "alice" 2023 1 6;
    commit_at "c4" "alice" 2023 1 5;  commit_at "c5" "alice" 2023 1 4;
    commit_at "c6" "bob" 2023 1 3;    commit_at "c7" "alice" 2023 1 3;
    commit_at "c8" "alice" 2023 1 2;  commit_at "c9" "alice" 2022 6 1 ].

(** Two commits in one week and one in the next. *)
Definition three_commits : list Commit :=
  [ commit_at "d0" "alice" 2023 1 9; commit_at "d1" "alice" 2023 1 4;
    commit_at "d2" "alice" 2023 1 3 ].

(** Nothing by alice in 2023. *)
Definition other_commits : list Commit :=
  [ commit_at "e0" "bob" 2023 3 1; commit_at "e1" "alice" 2022 6 1 ].

(** The store built from [git_two]. *)
Definition two_store : list Commit :=
  Eval vm_compute in
    match ingest_value git_two parse_ci with
    | Ok store => store
    | Raise _ => []
    end.

(** ** Display, message search and the file set of [main] *)

(** [str(n)] for a natural number. *)
Fixpoint digits_of (u : Decimal.uint) : pystr :=
  match u with
  | Decimal.Nil => []
  | Decimal.D0 r => 48%N :: digits_of r
  | Decimal.D1 r => 49%N :: digits_of r
  | Decimal.D2 r => 50%N :: digits_of r
  | Decimal.D3 r => 51%N :: digits_of r
  | Decimal.D4 r => 52%N :: digits_of r
  | Decimal.D5 r => 53%N :: digits_of r
  | Decimal.D6 r => 54%N :: digits_of r
  | Decimal.D7 r => 55%N :: digits_of r
  | Decimal.D8 r => 56%N :: digits_of r
  | Decimal.D9 r => 57%N :: digits_of r
  end.

Definition str_nat (n : nat) : pystr := digits_of (Nat.to_uint n).

(** [str(commit.message)]: the text, or the name of [None]. *)
Definition str_message (m : option pystr) : pystr :=
  match m with
  | Some s => s
  | None => py "None"
  end.

(** [display(idx, commit)]: what its three [print] calls write, one
    element per call, without the newline each call ends with. *)
Definition display (idx : nat) (commit : Commit) : list pystr :=
  [ py "Commit#" ++ str_nat idx ++ py ":";
    cid commit ++ py " " ++ str_message (message commit);
    [] ].

(** [stop == idx] for the optional integer [stop]. *)
Definition stop_is (stop : option Z) (idx : nat) : bool :=
  match stop with
  | Some z => z =? Z.of_nat idx
  | None => false
  end.

(** The loop of [show_top_n_commits] from index [idx] on. *)
Fixpoint show_from (idx : nat) (commits : list Commit) (stop : option Z)
    : list pystr :=
  match commits with
  | [] => []
  | commit :: r =>
      display idx commit
      ++ (if stop_is stop idx then [] else show_from (S idx) r stop)
  end.

Definition show_top_n_commits (commits : list Commit) (stop : option Z)
    : list pystr :=
  show_from 1 commits stop.

(** [search.lower() in c.message.lower()], for the case mapping [lower]
    of Python's [str.lower]. *)
Definition in_message (lower : pystr -> pystr) (search : pystr) (c : Commit)
    : result bool :=
  match message c with
  | Some m => Ok (contains (lower search) (lower m))
  | None => Raise AttributeError
  end.

Definition has_message (lower : pystr -> pystr) (commits : list Commit)
    (search : pystr) : result nat :=
  let! found := iterate_over commits [in_message lower search] in
  Ok (length found).

(** The first element of every list, when none of them is empty. *)
Fixpoint heads {A} (ls : list (list A)) : option (list A) :=
  match ls with
  | [] => Some []
  | l :: r =>
      match l, heads r with
      | x :: _, Some hs => Some (x :: hs)
      | _, _ => None
      end
  end.

Fixpoint zip_star_go {A} (fuel : nat) (ls : list (list A)) : list (list A) :=
  match fuel with
  | O => []
  | S fuel' =>
      match heads ls with
      | Some hs => hs :: zip_star_go fuel' (map (@List.tl A) ls)
      | None => []
      end
  end.

(** [zip( *ls )]: the tuples of the elements at one position, up to the
    length of the shortest list; no list at all gives no tuple. *)
Definition zip_star {A} (ls : list (list A)) : list (list A) :=
  match ls with
  | [] => []
  | l :: _ => zip_star_go (length l) ls
  end.

(** A set of strings, as the list of its elements. *)
Definition to_set (l : list pystr) : list pystr :=
  fold_left (fun seen a => add_once a seen) l [].

(** [set( *args )]: the constructor takes at most one iterable. *)
Definition set_star (args : list (list pystr)) : result (list pystr) :=
  match args with
  | [] => Ok []
  | [t] => Ok (to_set t)
  | _ :: _ :: _ => Raise TypeError
  end.

(** The first two statements of [main] on [files]:
    the set built from the transposed file lists, then without the empty
    strings. *)
Definition main_files (commits : list Commit) : result (list pystr) :=
  let! all := set_star (zip_star (map files commits)) in
  Ok (to_set (List.filter (fun f => negb (pystr_eqb f [])) all)).

(** ** Notions used in the further properties *)

(** The predicate returned something true for the commit; the predicates
    of the source return [bool], so truthiness is [True]. *)
Definition accepted (c : Commit) (fn : Commit -> result bool) : bool :=
  match fn c with
  | Ok true => true
  | _ => false
  end.

(** The keys of a list in the order of their first occurrence. *)
Fixpoint add_key {K} (eqb : K -> K -> bool) (k : K) (ks : list K) : list K :=
  match ks with
  | [] => [k]
  | k' :: r => if eqb k' k then ks else k' :: add_key eqb k r
  end.

Definition first_seen {K} (eqb : K -> K -> bool) (l : list K) : list K :=
  fold_left (fun ks k => add_key eqb k ks) l [].

(** [str.lower] on the ASCII letters, an instance for [lower]. *)
Definition ascii_lower (s : pystr) : pystr :=
  map (fun c => if (65 <=? c)%N && (c <=? 90)%N then (c + 32)%N else c) s.

(** * Properties *)

(** ** Text *)

Lemma split_on_nonempty sep s : split_on sep s <> [].
Proof.
  destruct s as [|c r]; simpl; [discriminate|].
  destruct (N.eqb c sep); [discriminate|].
  destruct (split_on sep r); discriminate.
Qed.

Lemma drop_while_head {A} (p : A -> bool) l x :
  head (drop_while p l) = Some x -> p x = false.
Proof.
  induction l as [|a l IH]; simpl; [discriminate|].
  destruct (p a) eqn:Ha; [assumption|].
  simpl. intros H. injection H as <-. assumption.
Qed.

Lemma drop_while_nil {A} (p : A -> bool) l :
  drop_while p l = [] <-> forall x, x ∈ l -> p x = true.
Proof.
  induction l as [|a l IH]; simpl.
  - split; [|reflexivity]. intros _ x Hx. inversion Hx.
  - destruct (p a) eqn:Ha.
    + rewrite IH. split.
      * intros H x Hx. apply elem_of_cons in Hx as [->|Hx]; auto.
      * intros H x Hx. apply H. right. assumption.
    + split; [discriminate|]. intros H.
      rewrite (H a) in Ha; [discriminate|left].
Qed.

(** Stripping leaves nothing exactly when every character is stripped. *)
Lemma strip_by_nil p s :
  strip_by p s = [] <-> forall x, x ∈ s -> p x = true.
Proof.
  unfold strip_by. rewrite <- drop_while_nil. split.
  - intros H. apply (f_equal (@rev N)) in H. rewrite rev_involutive in H.
    simpl in H. pose proof (proj1 (drop_while_nil _ _) H) as Hall.
    destruct (drop_while p s) as [|x r] eqn:E; [reflexivity|].
    assert (Hx : p x = true).
    { apply Hall. apply list_elem_of_In, in_rev. rewrite rev_involutive. left.
      reflexivity. }
    assert (Hd : head (drop_while p s) = Some x) by (rewrite E; reflexivity).
    apply drop_while_head in Hd. congruence.
  - intros ->. reflexivity.
Qed.

Lemma all_or_some {A} (p : A -> bool) (l : list A) :
  (forall x, x ∈ l -> p x = true) \/ (exists x, x ∈ l /\ p x = false).
Proof.
  induction l as [|a l [IH|(x & Hx & Hp)]].
  - left. intros x Hx. inversion Hx.
  - destruct (p a) eqn:Ha.
    + left. intros x Hx. apply elem_of_cons in Hx as [->|Hx]; auto.
    + right. exists a. split; [left|assumption].
  - right. exists x. split; [right|]; assumption.
Qed.

Lemma chomp_quotes_nonempty line :
  chomp_quotes line <> [] <-> exists ch, ch ∈ line /\ ch <> DQUOTE.
Proof.
  unfold chomp_quotes. rewrite strip_by_nil. split.
  - intros H. destruct (all_or_some (N.eqb DQUOTE) line) as [Hall|(ch & Hin & Hch)].
    + contradiction.
    + exists ch. split; [assumption|]. intros ->. discriminate.
  - intros (ch & Hin & Hch) H. apply Hch. symmetry.
    apply N.eqb_eq, H, Hin.
Qed.

Lemma map_r_pure {A B} (f : A -> B) (l : list A) :
  map_r (pure_stage f) l = Ok (map f l).
Proof.
  induction l as [|x l IH]; simpl; [reflexivity|].
  rewrite IH. reflexivity.
Qed.

Lemma map_r_length {A B} (f : A -> result B) l vs :
  map_r f l = Ok vs -> length vs = length l.
Proof.
  revert vs. induction l as [|x l IH]; simpl; intros vs H.
  - injection H as <-. reflexivity.
  - destruct (f x) as [y|e]; simpl in H; [|discriminate].
    destruct (map_r f l) as [ys|e]; simpl in H; [|discriminate].
    injection H as <-. simpl. f_equal. apply IH. reflexivity.
Qed.

Lemma map_r_lookup {A B} (f : A -> result B) l vs i x :
  map_r f l = Ok vs -> l !! i = Some x ->
  exists v, f x = Ok v /\ vs !! i = Some v.
Proof.
  revert vs i. induction l as [|y l IH]; simpl; intros vs i H Hi.
  - destruct i; discriminate.
  - destruct (f y) as [v|e] eqn:Hy; simpl in H; [|discriminate].
    destruct (map_r f l) as [ys|e] eqn:Hl; simpl in H; [|discriminate].
    injection H as <-. destruct i as [|i]; simpl in Hi.
    + injection Hi as <-. exists v. split; [assumption|reflexivity].
    + apply (IH ys i eq_refl Hi).
Qed.

Lemma map_r_raise {A B} (f : A -> result B) l e :
  map_r f l = Raise e -> exists i x e', l !! i = Some x /\ f x = Raise e'.
Proof.
  revert e. induction l as [|y l IH]; simpl; intros e H; [discriminate|].
  destruct (f y) as [v|e1] eqn:Hy; simpl in H.
  - destruct (map_r f l) as [ys|e2] eqn:Hl; simpl in H; [discriminate|].
    destruct (IH _ H) as (i & x & e' & Hi & Hx).
    exists (S i), x, e'. split; assumption.
  - exists O, y, e1. split; [reflexivity|assumption].
Qed.

Lemma map_r_ok_all {A B} (f : A -> result B) l :
  (forall i x, l !! i = Some x -> exists v, f x = Ok v) ->
  exists vs, map_r f l = Ok vs.
Proof.
  intros H. destruct (map_r f l) as [vs|e] eqn:E; [eauto|].
  destruct (map_r_raise _ _ _ E) as (i & x & e' & Hi & Hx).
  destruct (H i x Hi) as [v Hv]. congruence.
Qed.

(** ** The worker pool *)

(** Whatever the scheduler does, every submitted task completes once. *)
Lemma completion_order_perm choose k (running : list nat) :
  completion_order choose k running (length running) ≡ₚ running.
Proof.
  remember (length running) as n eqn:Hn.
  revert k running Hn. induction n as [|n IH]; intros k running Hn; simpl.
  - destruct running; [reflexivity|discriminate].
  - assert (Hlt : (choose k mod length running < length running)%nat).
    { apply Nat.mod_upper_bound. rewrite <- Hn. discriminate. }
    destruct (lookup_lt_is_Some_2 _ _ Hlt) as [i Hi].
    rewrite Hi.
    etransitivity; [|symmetry; apply (delete_Permutation _ _ _ Hi)].
    constructor. apply IH.
    pose proof (length_delete running (choose k mod length running) (ltac:(eauto))).
    lia.
Qed.

Lemma completion_order_complete choose n i :
  (i < n)%nat -> i ∈ completion_order choose 0 (seq 0 n) n.
Proof.
  intros Hi.
  pose proof (completion_order_perm choose 0 (seq 0 n)) as HP.
  rewrite length_seq in HP. rewrite HP. apply elem_of_seq. lia.
Qed.

Lemma collect_Some {B} (vs : list B) : collect (Some <$> vs) = Some vs.
Proof.
  induction vs as [|v vs IH]; [reflexivity|].
  rewrite fmap_cons. cbn [collect]. rewrite IH. reflexivity.
Qed.

Section Pool.

Context {A B : Type}.
Variable task : A -> M B.
Variable val : A -> result B.
Variable items : list A.

(** The tasks of a fan-out phase: the value does not depend on the world,
    and each one spawns one process. *)
Hypothesis task_val : forall x w, task x w = (val x, spawn w).

Lemma run_tasks_failure_kept order (mr : map_result B) w e :
  failure mr = Some e ->
  failure (fst (run_tasks task items order mr w)) = Some e.
Proof.
  revert mr w. induction order as [|i order IH]; intros mr w Hf; simpl.
  - assumption.
  - destruct (items !! i) as [x|]; [|apply IH; assumption].
    rewrite task_val. apply IH.
    unfold mr_set. rewrite Hf. destruct (val x); assumption.
Qed.

Lemma run_tasks_fails order (mr : map_result B) w i x e :
  i ∈ order -> items !! i = Some x -> val x = Raise e ->
  failure (fst (run_tasks task items order mr w)) <> None.
Proof.
  revert mr w. induction order as [|j order IH]; intros mr w Hin Hi Hx.
  - inversion Hin.
  - simpl. destruct (decide (j = i)) as [->|Hne].
    + rewrite Hi, task_val.
      destruct (failure mr) as [e0|] eqn:Hf.
      * rewrite (run_tasks_failure_kept _ _ _ e0); [discriminate|].
        unfold mr_set. rewrite Hf, Hx. assumption.
      * rewrite (run_tasks_failure_kept _ _ _ e); [discriminate|].
        unfold mr_set. rewrite Hf, Hx. reflexivity.
    + apply elem_of_cons in Hin as [Heq|Hin]; [congruence|].
      destruct (items !! j) as [y|]; [rewrite task_val|]; eapply IH; eassumption.
Qed.

Lemma run_tasks_fills vs order (mr : map_result B) w :
  map_r val items = Ok vs ->
  failure mr = None ->
  length (slots mr) = length items ->
  let mr' := fst (run_tasks task items order mr w) in
  failure mr' = None
  /\ length (slots mr') = length items
  /\ forall j, (j < length items)%nat ->
       slots mr' !! j
       = if decide (j ∈ order) then Some <$> vs !! j else slots mr !! j.
Proof.
  intros Hvs. revert mr w.
  induction order as [|i order IH]; intros mr w Hf Hlen; simpl.
  - repeat split; assumption.
  - destruct (items !! i) as [x|] eqn:Hi.
    + rewrite task_val.
      destruct (map_r_lookup _ _ _ _ _ Hvs Hi) as (v & Hv & Hvi).
      assert (Hset : mr_set i (val x) mr
                     = {| slots := <[i := Some v]> (slots mr); failure := None |}).
      { unfold mr_set. rewrite Hv, Hf. reflexivity. }
      rewrite Hset.
      destruct (IH {| slots := <[i := Some v]> (slots mr); failure := None |}
                  (spawn w) eq_refl) as (H1 & H2 & H3).
      { simpl. rewrite length_insert. assumption. }
      repeat split; try assumption. intros j Hj. rewrite (H3 j Hj). simpl.
      destruct (decide (j ∈ order)) as [Hin|Hnin].
      * rewrite decide_True by (apply elem_of_cons; right; assumption).
        reflexivity.
      * destruct (decide (i = j)) as [->|Hne].
        -- rewrite decide_True by (apply elem_of_cons; left; reflexivity).
           rewrite list_lookup_insert_eq by lia. rewrite Hvi. reflexivity.
        -- rewrite list_lookup_insert_ne by assumption.
           rewrite decide_False; [reflexivity|].
           intros Hin. apply elem_of_cons in Hin as [Heq|Hin]; congruence.
    + destruct (IH mr w Hf Hlen) as (H1 & H2 & H3).
      repeat split; try assumption. intros j Hj. rewrite (H3 j Hj).
      destruct (decide (j ∈ order)) as [Hin|Hnin].
      * rewrite decide_True by (apply elem_of_cons; right; assumption).
        reflexivity.
      * rewrite decide_False; [reflexivity|].
        intros Hin. apply elem_of_cons in Hin as [Heq|Hin]; [|contradiction].
        subst j. apply lookup_ge_None_1 in Hi. lia.
Qed.

Lemma run_tasks_world order (mr : map_result B) w :
  Forall (fun i => (i < length items)%nat) order ->
  snd (run_tasks task items order mr w) = spawn_n (length order) w.
Proof.
  revert mr w. induction order as [|i order IH]; intros mr w Hall; simpl.
  - destruct w; reflexivity.
  - inversion Hall as [|? ? Hi Hall']; subst.
    destruct (lookup_lt_is_Some_2 _ _ Hi) as [x Hx]. rewrite Hx, task_val.
    rewrite IH by assumption. unfold spawn_n, spawn. simpl. f_equal. lia.
Qed.

End Pool.

Section PoolMap.

Context {A B : Type}.
Variable pick : nat -> nat -> nat.
Variable task : A -> M B.
Variable val : A -> result B.
Hypothesis task_val : forall x w, task x w = (val x, spawn w).

Lemma pool_order_in_range phase (items : list A) :
  Forall (fun i => (i < length items)%nat)
    (completion_order (pick phase) 0 (seq 0 (length items)) (length items)).
Proof.
  apply Forall_forall. intros i Hi.
  pose proof (completion_order_perm (pick phase) 0 (seq 0 (length items))) as HP.
  rewrite length_seq in HP. rewrite HP in Hi. apply elem_of_seq in Hi. lia.
Qed.

Lemma pool_order_length phase (items : list A) :
  length (completion_order (pick phase) 0 (seq 0 (length items)) (length items))
  = length items.
Proof.
  pose proof (completion_order_perm (pick phase) 0 (seq 0 (length items))) as HP.
  rewrite length_seq in HP. rewrite HP. apply length_seq.
Qed.

Lemma pool_map_world phase items w :
  snd (pool_map pick phase task items w) = spawn_n (length items) w.
Proof.
  unfold pool_map.
  pose proof (run_tasks_world task val items task_val
    (completion_order (pick phase) 0 (seq 0 (length items)) (length items))
    {| slots := replicate (length items) None; failure := None |} w
    (pool_order_in_range phase items)) as HW.
  destruct (run_tasks _ _ _ _ _) as [mr w']. simpl in *.
  rewrite HW, pool_order_length. reflexivity.
Qed.

(** When every task returns, the pool returns their values in submission
    order. *)
Lemma pool_map_ok phase items vs w :
  map_r val items = Ok vs ->
  pool_map pick phase task items w = (Ok vs, spawn_n (length items) w).
Proof.
  intros Hvs.
  pose proof (pool_map_world phase items w) as HW.
  unfold pool_map in *.
  pose proof (run_tasks_fills task val items task_val vs
    (completion_order (pick phase) 0 (seq 0 (length items)) (length items))
    {| slots := replicate (length items) None; failure := None |} w
    Hvs eq_refl (length_replicate _ _)) as (Hf & Hlen & Hslots).
  destruct (run_tasks _ _ _ _ _) as [mr w']. simpl in *.
  subst w'. f_equal.
  assert (Hs : slots mr = Some <$> vs).
  { apply list_eq. intros j.
    destruct (decide (j < length items)%nat) as [Hj|Hj].
    - rewrite (Hslots j Hj).
      rewrite decide_True by (apply completion_order_complete; assumption).
      rewrite list_lookup_fmap. reflexivity.
    - rewrite (lookup_ge_None_2 (slots mr)) by lia.
      rewrite (lookup_ge_None_2 (Some <$> vs)); [reflexivity|].
      rewrite length_fmap, (map_r_length _ _ _ Hvs). lia. }
  unfold mr_get. rewrite Hf, Hs, collect_Some. reflexivity.
Qed.

(** When some task raises, the pool raises once all tasks are done. *)
Lemma pool_map_raise phase items e w :
  map_r val items = Raise e ->
  exists e', pool_map pick phase task items w
             = (Raise e', spawn_n (length items) w).
Proof.
  intros He.
  destruct (map_r_raise _ _ _ He) as (i & x & e1 & Hi & Hx).
  pose proof (pool_map_world phase items w) as HW.
  unfold pool_map in *.
  pose proof (run_tasks_fails task val items task_val
    (completion_order (pick phase) 0 (seq 0 (length items)) (length items))
    {| slots := replicate (length items) None; failure := None |} w i x e1
    (completion_order_complete _ _ _ (lookup_lt_Some _ _ _ Hi)) Hi Hx) as Hf.
  destruct (run_tasks _ _ _ _ _) as [mr w']. simpl in *. subst w'.
  unfold mr_get. destruct (failure mr) as [e'|]; [|contradiction].
  exists e'. reflexivity.
Qed.

End PoolMap.

(** ** Fan-out against the sequential loop *)

Section Phase.

Context {B : Type}.
Variable pick : nat -> nat -> nat.
Variable task : Commit -> M B.
Variable val : Commit -> result B.
Variable set : B -> Commit -> Commit.
Hypothesis task_val : forall x w, task x w = (val x, spawn w).

Lemma fan_out_ok phase commits vs w :
  map_r val commits = Ok vs ->
  fan_out pick phase task set commits w
  = (Ok (assign set vs commits), spawn_n (length commits) w).
Proof.
  intros Hvs. unfold fan_out, bindM.
  rewrite (pool_map_ok pick task val task_val phase commits vs w Hvs).
  reflexivity.
Qed.

Lemma fan_out_raise phase commits e w :
  map_r val commits = Raise e ->
  exists e', fan_out pick phase task set commits w
             = (Raise e', spawn_n (length commits) w).
Proof.
  intros He. unfold fan_out, bindM.
  destruct (pool_map_raise pick task val task_val phase commits e w He)
    as [e' ->].
  exists e'. reflexivity.
Qed.

Lemma sequential_value commits w :
  fst (sequential task set commits w)
  = let! vs := map_r val commits in Ok (assign set vs commits).
Proof.
  revert w. induction commits as [|c commits IH]; intros w; simpl.
  - reflexivity.
  - unfold bindM at 1. rewrite task_val.
    destruct (val c) as [v|e]; simpl; [|reflexivity].
    unfold bindM at 1. specialize (IH (spawn w)).
    destruct (sequential task set commits (spawn w)) as [[rest|e] w']; simpl in *.
    + destruct (map_r val commits) as [vs|e]; simpl in *; [|discriminate].
      injection IH as ->. reflexivity.
    + destruct (map_r val commits) as [vs|e']; simpl in *; [discriminate|].
      assumption.
Qed.

Lemma assign_lookup vs commits i c v :
  commits !! i = Some c -> vs !! i = Some v ->
  assign set vs commits !! i = Some (set v c).
Proof.
  revert vs i. induction commits as [|c0 commits IH]; intros vs i Hc Hv.
  - destruct i; discriminate.
  - destruct vs as [|v0 vs]; [destruct i; discriminate|].
    destruct i as [|i]; simpl in *.
    + congruence.
    + apply IH; assumption.
Qed.

Lemma assign_length vs commits :
  length (assign set vs commits) = length commits.
Proof.
  revert vs. induction commits as [|c commits IH]; intros [|v vs]; simpl;
    try reflexivity.
  f_equal. apply IH.
Qed.

End Phase.

(** ** The process runner *)

Lemma run_cmd_some exec {A B} cmd c (line : stages pystr A) (whole : list A -> B) w :
  run_cmd exec cmd (Some c) line whole w
  = (run_cmd_value exec cmd (Some c) line whole, spawn w).
Proof.
  unfold run_cmd, run_cmd_value.
  destruct cmd as [s|f]; simpl;
    destruct (utf8_decode _); reflexivity.
Qed.

Lemma run_cmd_fixed exec {A B} s args (line : stages pystr A) (whole : list A -> B) w :
  run_cmd exec (Fixed s) args line whole w
  = (run_cmd_value exec (Fixed s) args line whole, spawn w).
Proof.
  unfold run_cmd, run_cmd_value. simpl.
  destruct (utf8_decode _); reflexivity.
Qed.

(** C1. For every fan-out phase (any command, line transforms, reduction
    and attribute), whatever order the pool's tasks complete in, the
    commits come out as from the sequential loop over the same tasks: both
    return the same list or both raise; and when the phase returns, the
    commit at index [i] carries the value its own task returned. *)
Theorem fan_out_matches_sequential
    (exec : list pystr -> completed) (pick : nat -> nat -> nat)
    {A B : Type} (phase : nat) (cmd : cmd_t) (line : stages pystr A)
    (whole : list A -> B) (set : B -> Commit -> Commit)
    (commits : list Commit) (w : world) :
  let task := fun c => run_cmd exec cmd (Some c) line whole in
  same_outcome (fst (fan_out pick phase task set commits w))
               (fst (sequential task set commits w))
  /\ forall store,
       fst (fan_out pick phase task set commits w) = Ok store ->
       length store = length commits
       /\ forall i c, commits !! i = Some c ->
            exists v, fst (task c w) = Ok v /\ store !! i = Some (set v c).
Proof.
  intros task.
  set (val := fun c => run_cmd_value exec cmd (Some c) line whole).
  assert (Htask : forall x w0, task x w0 = (val x, spawn w0)).
  { intros x w0. apply run_cmd_some. }
  rewrite (sequential_value task val set Htask).
  destruct (map_r val commits) as [vs|e] eqn:Hvs.
  - rewrite (fan_out_ok pick task val set Htask phase commits vs w Hvs).
    simpl. split; [reflexivity|]. intros store Hs. injection Hs as <-.
    split; [apply assign_length|]. intros i c Hc.
    destruct (map_r_lookup _ _ _ _ _ Hvs Hc) as (v & Hv & Hvi).
    exists v. rewrite Htask. split; [assumption|].
    apply assign_lookup; assumption.
  - destruct (fan_out_raise pick task val set Htask phase commits e w Hvs)
      as [e' ->].
    simpl. split; [exact I|]. intros store Hs. discriminate.
Qed.

(** ** Ingestion *)

Lemma bindM_spec {A B} (m : M A) (k : A -> M B) w r w1 :
  m w = (r, w1) ->
  bindM m k w = match r with Ok a => k a w1 | Raise e => (Raise e, w1) end.
Proof. intros H. unfold bindM. rewrite H. reflexivity. Qed.

Section Ingest.

Variable exec : list pystr -> completed.
Variable parse : pystr -> option datetime.
Variable dumps : list Commit -> list byte.
Variable loads : list byte -> option (list Commit).
Variable pick : nat -> nat -> nat.

Lemma files_task_val c w :
  files_task exec c w = (files_value exec c, spawn w).
Proof. apply run_cmd_some. Qed.

Lemma author_task_val c w :
  author_task exec c w = (author_value exec c, spawn w).
Proof. apply run_cmd_some. Qed.

Lemma date_task_val c w :
  date_task exec parse c w = (date_value exec parse c, spawn w).
Proof. apply run_cmd_some. Qed.

Lemma message_task_val c w :
  message_task exec c w = (message_value exec c, spawn w).
Proof. apply run_cmd_some. Qed.

Lemma phase_value_length {B} (val : Commit -> result B) set commits store :
  phase_value val set commits = Ok store -> length store = length commits.
Proof.
  unfold phase_value. destruct (map_r val commits) as [vs|e]; simpl; [|discriminate].
  intros H. injection H as <-. apply assign_length.
Qed.

(** One phase of the pool against its value. *)
Lemma fan_out_phase_value {B} phase (task : Commit -> M B) val set commits w :
  (forall x w0, task x w0 = (val x, spawn w0)) ->
  match phase_value val set commits with
  | Ok store =>
      fan_out pick phase task set commits w
      = (Ok store, spawn_n (length commits) w)
  | Raise _ =>
      exists e', fan_out pick phase task set commits w
                 = (Raise e', spawn_n (length commits) w)
  end.
Proof.
  intros Htask. unfold phase_value.
  destruct (map_r val commits) as [vs|e] eqn:Hvs; simpl.
  - apply (fan_out_ok pick task val set Htask). assumption.
  - apply (fan_out_raise pick task val set Htask _ _ e). assumption.
Qed.

(** The build against the sequential reference: it returns the same store,
    has started one process for the enumeration and four per commit and has
    written the dump; or it raises and leaves the cache file as it was. *)
Lemma ingest_spec w :
  match ingest_value exec parse with
  | Ok store =>
      ingest exec parse dumps pick w
      = (Ok store,
         {| artifact := Some (dumps store);
            spawned := (1 + 4 * length store + spawned w)%nat |})
  | Raise _ =>
      exists e' w', ingest exec parse dumps pick w = (Raise e', w')
                    /\ artifact w' = artifact w
  end.
Proof.
  unfold ingest, ingest_value, ids_value.
  rewrite (bindM_spec _ _ _ _ _ (run_cmd_fixed exec _ None _ id w)).
  destruct (run_cmd_value exec (Fixed CMD_GET_ALL_COMMIT_IDS) None _ id)
    as [ids|e]; simpl; [|eauto].
  set (c0 := map new_commit ids).
  pose proof (fan_out_phase_value 0 (files_task exec) (files_value exec)
                set_files c0 (spawn w) files_task_val) as H1.
  destruct (phase_value (files_value exec) set_files c0) as [c1|e] eqn:E1; simpl;
    [|destruct H1 as [e' H1]]; rewrite (bindM_spec _ _ _ _ _ H1); [|eauto].
  pose proof (fan_out_phase_value 1 (author_task exec) (author_value exec)
                set_author c1 (spawn_n (length c0) (spawn w)) author_task_val) as H2.
  destruct (phase_value (author_value exec) set_author c1) as [c2|e] eqn:E2; simpl;
    [|destruct H2 as [e' H2]]; rewrite (bindM_spec _ _ _ _ _ H2); [|eauto].
  pose proof (fan_out_phase_value 2 (date_task exec parse) (date_value exec parse)
                set_created c2
                (spawn_n (length c1) (spawn_n (length c0) (spawn w)))
                date_task_val) as H3.
  destruct (phase_value (date_value exec parse) set_created c2) as [c3|e] eqn:E3;
    simpl; [|destruct H3 as [e' H3]]; rewrite (bindM_spec _ _ _ _ _ H3); [|eauto].
  pose proof (fan_out_phase_value 3 (message_task exec) (message_value exec)
                set_message_lines c3
                (spawn_n (length c2) (spawn_n (length c1)
                   (spawn_n (length c0) (spawn w))))
                message_task_val) as H4.
  destruct (phase_value (message_value exec) set_message_lines c3) as [c4|e] eqn:E4;
    simpl; [|destruct H4 as [e' H4]]; rewrite (bindM_spec _ _ _ _ _ H4); [|eauto].
  unfold bindM, dump_store, write_file, ret. simpl. f_equal. f_equal.
  apply phase_value_length in E1, E2, E3, E4. unfold c0 in *.
  rewrite length_map in *. lia.
Qed.

Lemma run_cmd_value_output {A B} cmd c (line : stages pystr A)
    (whole : list A -> B) v :
  run_cmd_value exec (PerCommit cmd) (Some c) line whole = Ok v ->
  exists lines out, output exec (cmd c) = Some lines
    /\ run_stages line lines = Ok out /\ v = whole out.
Proof.
  unfold run_cmd_value, output. simpl.
  destruct (utf8_decode _) as [text|]; [|discriminate].
  destruct (run_stages line _) as [out|e] eqn:E; simpl; [|discriminate].
  intros H. injection H as <-. eauto.
Qed.

Lemma ids_value_output ids :
  ids_value exec = Ok ids ->
  exists lines, output exec CMD_GET_ALL_COMMIT_IDS = Some lines
    /\ ids = map chomp_quotes lines.
Proof.
  unfold ids_value, run_cmd_value, output. simpl argv. simpl bind.
  destruct (utf8_decode _) as [text|]; [|discriminate].
  cbn [run_stages]. rewrite map_r_pure. simpl.
  intros H. injection H as <-. eauto.
Qed.

Lemma phase_value_lookup {B} (val : Commit -> result B) set commits store i c' :
  phase_value val set commits = Ok store -> store !! i = Some c' ->
  exists c v, commits !! i = Some c /\ val c = Ok v /\ c' = set v c.
Proof.
  intros Hp Hi. pose proof (phase_value_length _ _ _ _ Hp) as Hlen.
  unfold phase_value in Hp.
  destruct (map_r val commits) as [vs|e] eqn:Hvs; simpl in Hp; [|discriminate].
  injection Hp as <-.
  destruct (lookup_lt_is_Some_2 commits i) as [c Hc].
  { rewrite <- Hlen. eapply lookup_lt_Some. eassumption. }
  destruct (map_r_lookup _ _ _ _ _ Hvs Hc) as (v & Hv & Hvi).
  rewrite (assign_lookup set vs commits i c v Hc Hvi) in Hi.
  injection Hi as <-. eauto.
Qed.

(** What a store returned by the sequential reference looks like: one
    commit per enumerated line, in order, each carrying the output of the
    four commands for its own id. *)
Lemma ingest_value_inv store :
  ingest_value exec parse = Ok store ->
  exists lines, output exec CMD_GET_ALL_COMMIT_IDS = Some lines
    /\ map cid store = map chomp_quotes lines
    /\ Forall (ingested exec parse) store.
Proof.
  unfold ingest_value.
  destruct (ids_value exec) as [ids|e] eqn:E0; simpl; [|discriminate].
  destruct (ids_value_output ids E0) as (lines & Hout & ->).
  set (c0 := map new_commit (map chomp_quotes lines)).
  destruct (phase_value (files_value exec) set_files c0) as [c1|e] eqn:E1; simpl;
    [|discriminate].
  destruct (phase_value (author_value exec) set_author c1) as [c2|e] eqn:E2; simpl;
    [|discriminate].
  destruct (phase_value (date_value exec parse) set_created c2) as [c3|e] eqn:E3;
    simpl; [|discriminate].
  destruct (phase_value (message_value exec) set_message_lines c3) as [c4|e] eqn:E4;
    simpl; [|discriminate].
  intros H. injection H as <-. exists lines. split; [assumption|].
  assert (Hlen : length c4 = length (map chomp_quotes lines)).
  { apply phase_value_length in E1, E2, E3, E4. unfold c0 in E1.
    rewrite length_map in E1. lia. }
  assert (Hat : forall i c, c4 !! i = Some c ->
            map chomp_quotes lines !! i = Some (cid c)
            /\ ingested exec parse c).
  { intros i c Hc.
    destruct (phase_value_lookup _ _ _ _ _ _ E4 Hc) as (x3 & m & H3 & Vm & ->).
    destruct (phase_value_lookup _ _ _ _ _ _ E3 H3) as (x2 & d & H2 & Vd & ->).
    destruct (phase_value_lookup _ _ _ _ _ _ E2 H2) as (x1 & a & H1 & Va & ->).
    destruct (phase_value_lookup _ _ _ _ _ _ E1 H1) as (x0 & f & H0 & Vf & ->).
    unfold c0 in H0. rewrite list_lookup_fmap in H0.
    destruct (map chomp_quotes lines !! i) as [id0|] eqn:Hid; [|discriminate].
    injection H0 as <-.
    apply run_cmd_value_output in Vf as (lf & pf & Hf & Rf & ->).
    apply run_cmd_value_output in Va as (la & pa & Ha & Ra & ->).
    apply run_cmd_value_output in Vd as (ld & od & Hd & Rd & ->).
    apply run_cmd_value_output in Vm as (lm & pm & Hm & Rm & ->).
    cbn [run_stages] in Rf, Ra, Rd, Rm.
    rewrite map_r_pure in Ra, Rd, Rm. simpl in Ra, Rd, Rm.
    injection Rf as <-. injection Ra as <-. injection Rm as <-.
    split; [reflexivity|].
    unfold ingested. repeat split.
    - exists lf. split; [exact Hf|reflexivity].
    - exists la. split; [exact Ha|reflexivity].
    - exists ld, od. split; [exact Hd|]. split; [|reflexivity].
      destruct (map_r (parse_line parse) (map chomp_quotes ld)) as [ds|e];
        simpl in Rd; [|discriminate]. congruence.
    - exists lm. split; [exact Hm|reflexivity]. }
  split.
  - apply list_eq. intros i. rewrite list_lookup_fmap.
    destruct (c4 !! i) as [c|] eqn:Hc; simpl.
    + destruct (Hat i c Hc) as [-> _]. reflexivity.
    + symmetry. apply lookup_ge_None. apply lookup_ge_None in Hc. lia.
  - apply Forall_lookup. intros i c Hc. apply (Hat i c Hc).
Qed.

End Ingest.

(** ** The cache-aware build *)

Section Cache.

Variable exec : list pystr -> completed.
Variable parse : pystr -> option datetime.
Variable dumps : list Commit -> list byte.
Variable loads : list byte -> option (list Commit).
Variable pick : nat -> nat -> nat.

Lemma build_miss w :
  artifact w = None ->
  get_or_create_commits exec parse dumps loads pick false w
  = ingest exec parse dumps pick w.
Proof.
  intros H. unfold get_or_create_commits, bindM, ret, isfile.
  rewrite H. reflexivity.
Qed.

Lemma build_hit w bs :
  artifact w = Some bs ->
  get_or_create_commits exec parse dumps loads pick false w
  = (match loads bs with
     | Some store => Ok store
     | None => Raise UnpicklingError
     end, w).
Proof.
  intros H. unfold get_or_create_commits, bindM, ret, isfile, load_store.
  rewrite H. simpl. unfold bindM, read_file. rewrite H.
  destruct (loads bs); reflexivity.
Qed.

(** A build that finds no cache and returns has produced the reference
    store, has started [1 + 4 n] processes and has written the dump. *)
Lemma build_miss_ok w store w' :
  artifact w = None ->
  get_or_create_commits exec parse dumps loads pick false w = (Ok store, w') ->
  ingest_value exec parse = Ok store
  /\ w' = {| artifact := Some (dumps store);
             spawned := (1 + 4 * length store + spawned w)%nat |}.
Proof.
  intros Hw. rewrite (build_miss w Hw). intros H.
  pose proof (ingest_spec exec parse dumps pick w) as HS.
  destruct (ingest_value exec parse) as [store0|e].
  - rewrite HS in H. injection H as <- <-. split; reflexivity.
  - destruct HS as (e' & w1 & HS & _). rewrite HS in H. discriminate.
Qed.

End Cache.

Lemma output_nonempty exec cmdline lines :
  output exec cmdline = Some lines -> lines <> [].
Proof.
  unfold output. destruct (utf8_decode _) as [text|]; [|discriminate].
  intros H. injection H as <-. apply split_on_nonempty.
Qed.

Lemma first_nonempty {A} (l : list A) : l <> [] -> exists x, first l = One x.
Proof. destruct l as [|x l]; [contradiction|]. intros _. exists x. reflexivity. Qed.

Lemma ingested_populated exec parse c : ingested exec parse c -> populated c.
Proof.
  intros (_ & (la & Ha & Hau) & (ld & ds & Hd & Hds & Hcr) & (lm & _ & Hm)).
  repeat split.
  - rewrite Hcr. apply first_nonempty. intros ->.
    apply map_r_length in Hds. simpl in Hds. rewrite length_map in Hds.
    apply (output_nonempty _ _ _ Hd). destruct ld; [reflexivity|discriminate].
  - rewrite Hau. apply first_nonempty. intros Hnil.
    apply (output_nonempty _ _ _ Ha). destruct la; [reflexivity|discriminate].
  - eauto.
Qed.

(** C2, as amended. After a build that found no cache and returned, the
    store has exactly one commit per line of the enumeration output, in
    that order, its id being the line without its surrounding quotes (so
    the id is non-empty exactly when the line has a character other than a
    double quote), and every commit has [created], [author] and [message]
    set and [files] equal to the lines its changed-files command printed. *)
Theorem build_store_complete
    (exec : list pystr -> completed) (parse : pystr -> option datetime)
    (dumps : list Commit -> list byte) (loads : list byte -> option (list Commit))
    (pick : nat -> nat -> nat) (w w' : world) (store : list Commit) :
  artifact w = None ->
  get_or_create_commits exec parse dumps loads pick false w = (Ok store, w') ->
  exists lines,
    output exec CMD_GET_ALL_COMMIT_IDS = Some lines
    /\ map cid store = map chomp_quotes lines
    /\ (forall i c line, store !! i = Some c -> lines !! i = Some line ->
          (cid c <> [] <-> exists ch, ch ∈ line /\ ch <> DQUOTE))
    /\ Forall (fun c => populated c
                 /\ output exec (CMD_GET_COMMIT_FILES c) = Some (files c)) store.
Proof.
  intros Hw H.
  destruct (build_miss_ok exec parse dumps loads pick w store w' Hw H) as [Hv _].
  destruct (ingest_value_inv exec parse store Hv) as (lines & Hl & Hc & Hall).
  exists lines. split; [assumption|]. split; [assumption|]. split.
  - intros i c line Hi Hline.
    assert (Hid : cid c = chomp_quotes line).
    { apply (f_equal (fun l => l !! i)) in Hc.
      rewrite !list_lookup_fmap, Hi, Hline in Hc. simpl in Hc. congruence. }
    rewrite Hid. apply chomp_quotes_nonempty.
  - eapply Forall_impl; [exact Hall|]. intros c Hi. split.
    + apply (ingested_populated exec parse). assumption.
    + destruct Hi as ((lf & Hf & ->) & _). assumption.
Qed.

Lemma build_store_complete_witness :
  exists lines,
    output git_two CMD_GET_ALL_COMMIT_IDS = Some lines
    /\ map cid two_store = map chomp_quotes lines
    /\ (forall i c line, two_store !! i = Some c -> lines !! i = Some line ->
          (cid c <> [] <-> exists ch, ch ∈ line /\ ch <> DQUOTE))
    /\ Forall (fun c => populated c
                 /\ output git_two (CMD_GET_COMMIT_FILES c) = Some (files c))
         two_store.
Proof.
  apply (build_store_complete git_two parse_ci codec_dumps codec_loads
           youngest_first no_cache
           {| artifact := Some (codec_dumps two_store); spawned := 9 |}).
  - reflexivity.
  - vm_compute. reflexivity.
Defined.

(** C2, as stated, fails: when [git log] prints nothing the build returns
    a store whose only commit has the empty id. *)
Lemma build_keeps_empty_id :
  exists store w',
    get_or_create_commits git_log_fails parse_ci codec_dumps codec_loads
      youngest_first false no_cache = (Ok store, w')
    /\ ~ Forall (fun c => cid c <> []) store.
Proof.
  eexists. eexists. split.
  - vm_compute. reflexivity.
  - intros H. inversion H as [|c l Hc _]; subst. apply Hc. reflexivity.
Qed.

(** ** The byte format *)

Lemma dec_pos_ok : decodes enc_pos dec_pos.
Proof.
  intros p rest. induction p as [q IH|q IH|]; simpl.
  - rewrite IH. reflexivity.
  - rewrite IH. reflexivity.
  - reflexivity.
Qed.

Lemma dec_N_ok : decodes enc_N dec_N.
Proof.
  intros [|p] rest; simpl; [reflexivity|].
  unfold dbind. rewrite dec_pos_ok. reflexivity.
Qed.

Lemma dec_nat_ok : decodes enc_nat dec_nat.
Proof.
  intros n rest. unfold dec_nat, enc_nat, dbind. rewrite dec_N_ok.
  unfold dret. rewrite Nat2N.id. reflexivity.
Qed.

Lemma dec_Z_ok : decodes enc_Z dec_Z.
Proof.
  intros [|p|p] rest; simpl; [reflexivity| |];
    unfold dbind; rewrite dec_pos_ok; reflexivity.
Qed.

Lemma dec_seq_ok {A} (enc : A -> list byte) (dec : decoder A) :
  decodes enc dec ->
  forall l rest, dec_seq dec (length l) (concat (map enc l) ++ rest) = Some (l, rest).
Proof.
  intros H l. induction l as [|a l IH]; intros rest; simpl.
  - reflexivity.
  - unfold dbind. rewrite <- app_assoc, H, IH. reflexivity.
Qed.

Lemma dec_list_ok {A} (enc : A -> list byte) (dec : decoder A) :
  decodes enc dec -> decodes (enc_list enc) (dec_list dec).
Proof.
  intros H l rest. unfold dec_list, enc_list, dbind.
  rewrite <- app_assoc, dec_nat_ok. apply dec_seq_ok. assumption.
Qed.

Lemma dec_option_ok {A} (enc : A -> list byte) (dec : decoder A) :
  decodes enc dec -> decodes (enc_option enc) (dec_option dec).
Proof.
  intros H [a|] rest; simpl; [|reflexivity].
  unfold dbind. rewrite H. reflexivity.
Qed.

Lemma dec_attr_ok {A} (enc : A -> list byte) (dec : decoder A) :
  decodes enc dec -> decodes (enc_attr enc) (dec_attr dec).
Proof.
  intros H [|a|l] rest; simpl; [reflexivity| |].
  - unfold dbind. rewrite H. reflexivity.
  - unfold dbind. rewrite (dec_list_ok enc dec H). reflexivity.
Qed.

Lemma dec_str_ok : decodes enc_str dec_str.
Proof. apply dec_list_ok, dec_N_ok. Qed.

Lemma dec_date_ok : decodes enc_date dec_date.
Proof.
  intros [y m d] rest. unfold enc_date, dec_date, dbind. simpl.
  rewrite <- !app_assoc. rewrite !dec_Z_ok. reflexivity.
Qed.

Lemma dec_datetime_ok : decodes enc_datetime dec_datetime.
Proof.
  intros [d h mi s off] rest. unfold enc_datetime, dec_datetime, dbind. simpl.
  rewrite <- !app_assoc. rewrite dec_date_ok, !dec_Z_ok. reflexivity.
Qed.

Lemma dec_commit_ok : decodes enc_commit dec_commit.
Proof.
  intros [i cr au me fi] rest. unfold enc_commit, dec_commit, dbind. simpl.
  rewrite <- !app_assoc.
  rewrite dec_str_ok, (dec_attr_ok _ _ dec_datetime_ok),
    (dec_attr_ok _ _ dec_str_ok), (dec_option_ok _ _ dec_str_ok),
    (dec_list_ok _ _ dec_str_ok).
  reflexivity.
Qed.

(** The byte format is an instance of what the build asks of [pickle]:
    loading a dump gives the store back. *)
Lemma codec_roundtrip store : codec_loads (codec_dumps store) = Some store.
Proof.
  unfold codec_loads, codec_dumps.
  rewrite <- (app_nil_r (enc_list enc_commit store)).
  rewrite (dec_list_ok _ _ dec_commit_ok). reflexivity.
Qed.

(** ** Claims on the cache *)

(** C4. With [force] set, an existing cache file is removed and the store
    is built as if there had been none; but when there is no cache file,
    the removal raises [FileNotFoundError] and nothing is built. *)
Theorem forced_build
    (exec : list pystr -> completed) (parse : pystr -> option datetime)
    (dumps : list Commit -> list byte) (loads : list byte -> option (list Commit))
    (pick : nat -> nat -> nat) (n : nat) :
  (forall bs,
     get_or_create_commits exec parse dumps loads pick true
       {| artifact := Some bs; spawned := n |}
     = ingest exec parse dumps pick {| artifact := None; spawned := n |})
  /\ get_or_create_commits exec parse dumps loads pick true
       {| artifact := None; spawned := n |}
     = (Raise FileNotFoundError, {| artifact := None; spawned := n |}).
Proof.
  split; [intros bs|]; reflexivity.
Qed.

(** Writing a store to the cache file and reading the file back gives the
    store written, whenever the serializer reads its own dump of it. *)
Lemma dump_then_load
    (dumps : list Commit -> list byte) (loads : list byte -> option (list Commit))
    (store : list Commit) (w : world) :
  loads (dumps store) = Some store ->
  bindM (dump_store dumps store) (fun _ => load_store loads) w
  = (Ok store, {| artifact := Some (dumps store); spawned := spawned w |}).
Proof.
  intros H. unfold bindM at 1. unfold dump_store, write_file, load_store.
  unfold bindM, read_file, ret. simpl. rewrite H. reflexivity.
Qed.

(** C7. For a store of any size (none, one or many commits), writing it
    to the cache file with the serializer and reading the file back gives
    a store equal to the one written, in every field of every commit. *)
Theorem store_roundtrip (store : list Commit) (w : world) :
  codec_loads (codec_dumps store) = Some store
  /\ bindM (dump_store codec_dumps store) (fun _ => load_store codec_loads) w
     = (Ok store,
        {| artifact := Some (codec_dumps store); spawned := spawned w |}).
Proof.
  split; [apply codec_roundtrip|].
  apply dump_then_load, codec_roundtrip.
Qed.

(** C8. A first call without [force] that finds no cache and returns has
    run the ingestion (one process for the enumeration, four per commit)
    and has written the dump; a second call, whatever the repository and
    the scheduler do by then, returns the same store and starts no
    process. *)
Theorem second_build_reads_cache
    (exec exec' : list pystr -> completed)
    (parse parse' : pystr -> option datetime)
    (dumps : list Commit -> list byte) (loads : list byte -> option (list Commit))
    (pick pick' : nat -> nat -> nat) (w w1 : world) (store : list Commit) :
  artifact w = None ->
  loads (dumps store) = Some store ->
  get_or_create_commits exec parse dumps loads pick false w = (Ok store, w1) ->
  w1 = {| artifact := Some (dumps store);
          spawned := (1 + 4 * length store + spawned w)%nat |}
  /\ get_or_create_commits exec' parse' dumps loads pick' false w1 = (Ok store, w1).
Proof.
  intros Hw Hl H.
  destruct (build_miss_ok exec parse dumps loads pick w store w1 Hw H) as [_ ->].
  split; [reflexivity|].
  rewrite (build_hit exec' parse' dumps loads pick'
             {| artifact := Some (dumps store);
                spawned := (1 + 4 * length store + spawned w)%nat |}
             (dumps store) eq_refl).
  rewrite Hl. reflexivity.
Qed.

Lemma second_build_reads_cache_witness :
  {| artifact := Some (codec_dumps two_store); spawned := 9 |}
  = {| artifact := Some (codec_dumps two_store);
       spawned := (1 + 4 * length two_store + spawned no_cache)%nat |}
  /\ get_or_create_commits git_log_fails parse_ci codec_dumps codec_loads
       in_order false
       {| artifact := Some (codec_dumps two_store); spawned := 9 |}
     = (Ok two_store,
        {| artifact := Some (codec_dumps two_store); spawned := 9 |}).
Proof.
  apply (second_build_reads_cache git_two git_log_fails parse_ci parse_ci
           codec_dumps codec_loads youngest_first in_order no_cache).
  - reflexivity.
  - vm_compute. reflexivity.
  - vm_compute. reflexivity.
Defined.

(** ** Claims on what is stored *)

Lemma last_tail {A} (a : A) l x : last l = Some x -> last (a :: l) = Some x.
Proof. destruct l; [discriminate|]. intros H. exact H. Qed.

Lemma drop_while_last {A} (p : A -> bool) l x :
  last (drop_while p l) = Some x -> last l = Some x.
Proof.
  induction l as [|a l IH]; simpl; [discriminate|].
  destruct (p a); [|intros H; exact H].
  intros H. apply last_tail, IH, H.
Qed.

Lemma last_rev {A} (l : list A) : last (rev l) = head l.
Proof. destruct l as [|a l]; [reflexivity|]. simpl. apply last_snoc. Qed.

Lemma head_rev {A} (l : list A) : head (rev l) = last l.
Proof. rewrite <- (last_rev (rev l)), rev_involutive. reflexivity. Qed.

(** What [chomp_quotes] returns neither starts nor ends with a quote. *)
Lemma chomp_quotes_ends line :
  head (chomp_quotes line) <> Some DQUOTE
  /\ last (chomp_quotes line) <> Some DQUOTE.
Proof.
  unfold chomp_quotes, strip_by. split; intros H.
  - rewrite head_rev in H. apply drop_while_last in H.
    rewrite last_rev in H. apply drop_while_head in H. discriminate.
  - rewrite last_rev in H. apply drop_while_head in H. discriminate.
Qed.

Lemma strip_by_head p s x : head (strip_by p s) = Some x -> p x = false.
Proof.
  unfold strip_by. rewrite head_rev. intros H.
  apply drop_while_last in H. rewrite last_rev in H.
  apply drop_while_head in H. assumption.
Qed.

Lemma strip_by_last p s x : last (strip_by p s) = Some x -> p x = false.
Proof.
  unfold strip_by. rewrite last_rev. apply drop_while_head.
Qed.

Lemma drop_while_frame {A} (p : A -> bool) (l : list A) :
  exists pre, l = pre ++ drop_while p l /\ Forall (fun x => p x = true) pre.
Proof.
  induction l as [|x l (pre & IH & Hpre)]; simpl.
  - exists []. split; [reflexivity|constructor].
  - destruct (p x) eqn:E.
    + exists (x :: pre). split; [simpl; congruence|]. constructor; assumption.
    + exists []. split; [reflexivity|constructor].
Qed.

Lemma strip_by_frame p s :
  exists pre suf,
    s = pre ++ strip_by p s ++ suf
    /\ Forall (fun x => p x = true) pre /\ Forall (fun x => p x = true) suf.
Proof.
  unfold strip_by.
  destruct (drop_while_frame p s) as (pre & E1 & H1).
  destruct (drop_while_frame p (rev (drop_while p s))) as (suf & E2 & H2).
  exists pre, (rev suf). split; [|split].
  - rewrite <- rev_app_distr, <- E2, rev_involutive. exact E1.
  - assumption.
  - apply Forall_forall. intros x Hx.
    apply list_elem_of_In, in_rev, list_elem_of_In in Hx.
    apply (proj1 (Forall_forall _ _) H2 x Hx).
Qed.

Lemma chomp_quotes_without_quotes line : without_quotes line (chomp_quotes line).
Proof.
  split; [|apply chomp_quotes_ends]. unfold chomp_quotes.
  destruct (strip_by_frame (N.eqb DQUOTE) line) as (pre & suf & E & H1 & H2).
  exists pre, suf. split; [exact E|].
  split; (eapply Forall_impl; [eassumption|]); intros x Hx;
    apply N.eqb_eq in Hx; congruence.
Qed.

Lemma join_newline_joined (parts : list pystr) :
  parts <> [] -> newline_joined parts (join [NEWLINE] parts).
Proof.
  unfold newline_joined.
  induction parts as [|p r IH]; intros H; [contradiction|].
  destruct r as [|q r]; [simpl; rewrite app_nil_r; reflexivity|].
  change (join [NEWLINE] (p :: q :: r))
    with (p ++ [NEWLINE] ++ join [NEWLINE] (q :: r)).
  change (concat (map (fun l : pystr => l ++ [NEWLINE]) (p :: q :: r)))
    with ((p ++ [NEWLINE])
          ++ concat (map (fun l : pystr => l ++ [NEWLINE]) (q :: r))).
  rewrite <- IH by discriminate.
  rewrite <- !app_assoc. reflexivity.
Qed.

Lemma strip_trimmed text : trimmed text (strip text).
Proof.
  split; [|split].
  - apply strip_by_frame.
  - intros x. apply strip_by_head.
  - intros x. apply strip_by_last.
Qed.

(** C10. After a build, the message of every commit is made from the
    lines its message command printed: each line without its leading and
    trailing double quotes, these joined by newlines, and the joined text
    without its surrounding whitespace.  So a line that begins or ends
    with double quotes is stored without them. *)
Theorem message_is_stripped_lines
    (exec : list pystr -> completed) (parse : pystr -> option datetime)
    (dumps : list Commit -> list byte) (loads : list byte -> option (list Commit))
    (pick : nat -> nat -> nat) (w w' : world) (store : list Commit) :
  artifact w = None ->
  get_or_create_commits exec parse dumps loads pick false w = (Ok store, w') ->
  forall i c, store !! i = Some c ->
    exists lines chomped text m,
      output exec (CMD_GET_COMMIT_MESSAGE c) = Some lines
      /\ Forall2 without_quotes lines chomped
      /\ newline_joined chomped text
      /\ trimmed text m
      /\ message c = Some m.
Proof.
  intros Hw H i c Hc.
  destruct (build_miss_ok exec parse dumps loads pick w store w' Hw H) as [Hv _].
  destruct (ingest_value_inv exec parse store Hv) as (_ & _ & _ & Hall).
  pose proof (proj1 (Forall_lookup _ _) Hall i c Hc) as (_ & _ & _ & lm & Hm & Hmsg).
  exists lm, (map chomp_quotes lm), (join [NEWLINE] (map chomp_quotes lm)),
    (strip (join [NEWLINE] (map chomp_quotes lm))).
  split; [exact Hm|]. split; [|split; [|split; [|exact Hmsg]]].
  - clear. induction lm as [|l lm IH]; simpl; constructor;
      [apply chomp_quotes_without_quotes|exact IH].
  - apply join_newline_joined. pose proof (output_nonempty _ _ _ Hm) as Hne.
    destruct lm; [contradiction|discriminate].
  - apply strip_trimmed.
Qed.

Lemma message_is_stripped_lines_witness :
  exists c,
    two_store !! 0%nat = Some c
    /\ exists lines chomped text m,
         output git_two (CMD_GET_COMMIT_MESSAGE c) = Some lines
         /\ Forall2 without_quotes lines chomped
         /\ newline_joined chomped text
         /\ trimmed text m
         /\ message c = Some m.
Proof.
  eexists. split; [reflexivity|].
  apply (message_is_stripped_lines git_two parse_ci codec_dumps codec_loads
           youngest_first no_cache
           {| artifact := Some (codec_dumps two_store); spawned := 9 |}
           two_store eq_refl) with (i := 0%nat).
  - vm_compute. reflexivity.
  - reflexivity.
Defined.

Lemma startswith_nil pre : pre <> [] -> startswith pre [] = false.
Proof. destruct pre; [contradiction|reflexivity]. Qed.

Lemma endswith_nil suf : suf <> [] -> endswith [] suf = false.
Proof.
  intros H. unfold endswith. apply startswith_nil.
  intros Hr. apply H. rewrite <- (rev_involutive suf), Hr. reflexivity.
Qed.

(** C9, as amended. After a build the store has one commit per enumerated
    line; a commit whose changed-files command printed nothing is among
    them with [files] equal to the one-element list holding the empty
    path, and neither the extension filter nor a file-name filter with a
    non-empty name matches it. *)
Theorem empty_diff_one_empty_path
    (exec : list pystr -> completed) (parse : pystr -> option datetime)
    (dumps : list Commit -> list byte) (loads : list byte -> option (list Commit))
    (pick : nat -> nat -> nat) (w w' : world) (store : list Commit) :
  artifact w = None ->
  get_or_create_commits exec parse dumps loads pick false w = (Ok store, w') ->
  exists lines,
    output exec CMD_GET_ALL_COMMIT_IDS = Some lines
    /\ map cid store = map chomp_quotes lines
    /\ forall i c, store !! i = Some c ->
         stdout (exec (split_ws (CMD_GET_COMMIT_FILES c))) = [] ->
         files c = [[]]
         /\ (forall ext, edited_specific_extension ext c = false)
         /\ (forall name, name <> [] -> edited_file_named name c = false).
Proof.
  intros Hw H.
  destruct (build_miss_ok exec parse dumps loads pick w store w' Hw H) as [Hv _].
  destruct (ingest_value_inv exec parse store Hv) as (lines & Hl & Hids & Hall).
  exists lines. split; [assumption|]. split; [assumption|].
  intros i c Hc Hempty.
  pose proof (proj1 (Forall_lookup _ _) Hall i c Hc) as ((lf & Hf & Hfiles) & _).
  unfold output in Hf. rewrite Hempty in Hf. simpl in Hf. injection Hf as <-.
  split; [assumption|]. split.
  - intros ext. unfold edited_specific_extension. rewrite Hfiles. simpl.
    rewrite endswith_nil; [reflexivity|discriminate].
  - intros name Hname. unfold edited_file_named. rewrite Hfiles. simpl.
    rewrite endswith_nil; [reflexivity|assumption].
Qed.

Lemma empty_diff_one_empty_path_witness :
  exists lines c,
    output git_two CMD_GET_ALL_COMMIT_IDS = Some lines
    /\ map cid two_store = map chomp_quotes lines
    /\ two_store !! 1%nat = Some c
    /\ files c = [[]]
    /\ (forall ext, edited_specific_extension ext c = false)
    /\ (forall name, name <> [] -> edited_file_named name c = false).
Proof.
  destruct (empty_diff_one_empty_path git_two parse_ci codec_dumps codec_loads
              youngest_first no_cache
              {| artifact := Some (codec_dumps two_store); spawned := 9 |}
              two_store eq_refl ltac:(vm_compute; reflexivity))
    as (lines & Hl & Hids & Hat).
  exists lines. eexists. split; [exact Hl|]. split; [exact Hids|].
  split; [reflexivity|].
  apply (Hat 1%nat); [reflexivity|vm_compute; reflexivity].
Defined.

(** C9, as stated, fails: the root commit of [git_two], whose changed-files
    command prints nothing, is stored with one (empty) path, not with
    none. *)
Lemma empty_diff_not_empty_files :
  exists store w' c,
    get_or_create_commits git_two parse_ci codec_dumps codec_loads
      youngest_first false no_cache = (Ok store, w')
    /\ store !! 1%nat = Some c
    /\ stdout (git_two (split_ws (CMD_GET_COMMIT_FILES c))) = []
    /\ files c <> [].
Proof.
  eexists. eexists. eexists. split; [vm_compute; reflexivity|].
  split; [reflexivity|]. split; [vm_compute; reflexivity|].
  vm_compute. discriminate.
Qed.

(** ** Claims on failing commands *)






(** *** Which exception aborts a build *)












(** ** The weekly mean *)

Lemma mkdate_jan1 y :
  1 <= y <= 9999 ->
  mkdate y 1 1 = Ok {| year := y; month := 1; day := 1 |}.
Proof.
  intros Hy. unfold mkdate, fits_int, MINYEAR, MAXYEAR.
  replace (-2147483648 <=? y) with true by (symmetry; apply Z.leb_le; lia).
  replace (y <=? 2147483647) with true by (symmetry; apply Z.leb_le; lia).
  replace (1 <=? y) with true by (symmetry; apply Z.leb_le; lia).
  replace (y <=? 9999) with true by (symmetry; apply Z.leb_le; lia).
  reflexivity.
Qed.

Lemma whole_year_spec y c t :
  created c = One t -> 1 <= y <= 9998 ->
  whole_year y c = Ok (in_window y c).
Proof.
  intros Hc Hy. unfold whole_year, in_window, created_date.
  rewrite Hc, mkdate_jan1 by lia. simpl.
  destruct (date_le _ _); simpl; [|reflexivity].
  rewrite mkdate_jan1 by lia. reflexivity.
Qed.

Lemma passes_spec y authors c t :
  created c = One t -> 1 <= y <= 9998 ->
  passes [whole_year y; only_authors authors] c
  = Ok (in_window y c && by_authors authors c).
Proof.
  intros Hc Hy. simpl. rewrite (whole_year_spec y c t Hc Hy). simpl.
  destruct (in_window y c); simpl; [|reflexivity].
  unfold by_authors. destruct (existsb _ authors); reflexivity.
Qed.

Lemma filter_r_spec {A} (p : A -> result bool) (f : A -> bool) l :
  Forall (fun x => p x = Ok (f x)) l ->
  filter_r p l = Ok (List.filter f l).
Proof.
  induction 1 as [|x l Hx _ IH]; simpl; [reflexivity|].
  rewrite Hx, IH. simpl. reflexivity.
Qed.

Lemma iterate_over_spec commits authors y :
  Forall (fun c => exists t, created c = One t) commits ->
  1 <= y <= 9998 ->
  iterate_over commits [whole_year y; only_authors authors]
  = Ok (matching commits authors y).
Proof.
  intros Hwf Hy. unfold iterate_over, matching. apply filter_r_spec.
  eapply Forall_impl; [exact Hwf|]. intros c [t Ht].
  apply (passes_spec y authors c t Ht Hy).
Qed.

Lemma in_week_snoc w p c :
  in_week w (p ++ [c])
  = in_week w p ++ (if week_of c =? w then [c] else []).
Proof. unfold in_week. rewrite List.filter_app. reflexivity. Qed.

Lemma in_week_none k p :
  (forall x, x ∈ p -> week_of x <> k) -> in_week k p = [].
Proof.
  induction p as [|a p IH]; intros H; simpl; [reflexivity|].
  destruct (Z.eqb_spec (week_of a) k) as [Heq|_].
  - exfalso. apply (H a); [left|assumption].
  - apply IH. intros x Hx. apply H. right. assumption.
Qed.

Lemma add_week_elem k ks x : x ∈ add_week k ks <-> x = k \/ x ∈ ks.
Proof.
  induction ks as [|w r IH]; simpl.
  - rewrite list_elem_of_singleton. split; [auto|].
    intros [H|H]; [assumption|inversion H].
  - destruct (Z.eqb_spec w k) as [->|Hne].
    + rewrite elem_of_cons. tauto.
    + rewrite !elem_of_cons, IH. tauto.
Qed.

Lemma add_week_NoDup k ks : NoDup ks -> NoDup (add_week k ks).
Proof.
  induction ks as [|w r IH]; simpl; intros H.
  - apply NoDup_singleton.
  - destruct (Z.eqb_spec w k) as [->|Hne]; [assumption|].
    apply NoDup_cons in H as [Hw Hr]. apply NoDup_cons. split; [|auto].
    rewrite add_week_elem. intros [->|Hin]; [congruence|contradiction].
Qed.

(** Appending a commit to the groups of the commits seen so far. *)
Lemma dd_append_spec c p ks :
  NoDup ks ->
  (week_of c ∉ ks -> in_week (week_of c) p = []) ->
  dd_append Z.eqb (week_of c) c (map (fun w => (w, in_week w p)) ks)
  = map (fun w => (w, in_week w (p ++ [c]))) (add_week (week_of c) ks).
Proof.
  induction ks as [|w r IH]; intros Hnd Hfresh; simpl.
  - rewrite in_week_snoc, Hfresh, Z.eqb_refl; [reflexivity|]. intros H. inversion H.
  - apply NoDup_cons in Hnd as [Hw Hr].
    destruct (Z.eqb_spec w (week_of c)) as [Heq|Hne]; simpl.
    + subst w. rewrite in_week_snoc, Z.eqb_refl.
      f_equal. apply map_ext_in. intros x Hx. rewrite in_week_snoc.
      destruct (Z.eqb_spec (week_of c) x) as [Hx'|_]; [|rewrite app_nil_r; reflexivity].
      exfalso. apply Hw. apply list_elem_of_In. congruence.
    + rewrite in_week_snoc.
      destruct (Z.eqb_spec (week_of c) w) as [Hx'|_]; [congruence|].
      rewrite app_nil_r. f_equal. apply IH; [assumption|].
      intros Hnin. apply Hfresh. rewrite elem_of_cons. intros [H|H]; congruence.
Qed.

Lemma week_key_spec c t : created c = One t -> week_key c = Ok (week_of c).
Proof. intros H. unfold week_key, week_of, created_date. rewrite H. reflexivity. Qed.

Lemma group_by_from_spec l : forall p ks,
  Forall (fun c => exists t, created c = One t) l ->
  NoDup ks ->
  (forall x, x ∈ p -> week_of x ∈ ks) ->
  group_by_from Z.eqb week_key l (map (fun w => (w, in_week w p)) ks)
  = Ok (map (fun w => (w, in_week w (p ++ l))) (weeks_from l ks)).
Proof.
  induction l as [|c l IH]; intros p ks Hwf Hnd Hcov; simpl.
  - rewrite app_nil_r. reflexivity.
  - apply Forall_cons in Hwf as [[t Ht] Hwf].
    rewrite (week_key_spec c t Ht). simpl.
    rewrite dd_append_spec.
    + rewrite (IH (p ++ [c]) (add_week (week_of c) ks)).
      * rewrite <- app_assoc. reflexivity.
      * assumption.
      * apply add_week_NoDup. assumption.
      * intros x Hx. rewrite add_week_elem.
        apply elem_of_app in Hx as [Hx|Hx]; [right; auto|].
        apply list_elem_of_singleton in Hx. left. congruence.
    + assumption.
    + intros Hnin. apply in_week_none. intros x Hx Heq.
      apply Hnin. rewrite <- Heq. apply Hcov. assumption.
Qed.

Lemma weeks_from_NoDup l : forall ks, NoDup ks -> NoDup (weeks_from l ks).
Proof.
  induction l as [|c l IH]; intros ks H; simpl; [assumption|].
  apply IH, add_week_NoDup, H.
Qed.

Lemma group_by_spec l :
  Forall (fun c => exists t, created c = One t) l ->
  group_by Z.eqb week_key l
  = Ok (map (fun w => (w, in_week w l)) (weeks l)).
Proof.
  intros Hwf. unfold group_by, weeks.
  apply (group_by_from_spec l [] [] Hwf).
  - apply NoDup_nil_2.
  - intros x Hx. inversion Hx.
Qed.

Lemma counter_update_fresh (k n : Z) counter :
  k ∉ map fst counter ->
  counter_update Z.eqb k n counter = counter ++ [(k, n)].
Proof.
  induction counter as [|[k0 v] r IH]; simpl; intros H; [reflexivity|].
  destruct (Z.eqb_spec k0 k) as [->|Hne].
  - exfalso. apply H. left.
  - f_equal. apply IH. intros Hin. apply H. right. assumption.
Qed.

Lemma do_count_from_spec (grouped : list (Z * list Commit)) : forall counter,
  NoDup (map fst counter ++ map fst grouped) ->
  do_count_from Z.eqb id grouped counter
  = counter ++ map (fun g => (fst g, Z.of_nat (length (snd g)))) grouped.
Proof.
  induction grouped as [|[k cs] r IH]; intros counter Hnd; simpl.
  - rewrite app_nil_r. reflexivity.
  - simpl in Hnd. rewrite counter_update_fresh.
    + rewrite IH.
      * rewrite <- app_assoc. reflexivity.
      * rewrite map_app, <- app_assoc. simpl. assumption.
    + apply NoDup_app in Hnd as (_ & Hdis & _).
      intros Hin. apply (Hdis k Hin). left.
Qed.

Lemma do_count_groups l :
  values (do_count Z.eqb id (map (fun w => (w, in_week w l)) (weeks l)))
  = weekly_counts l.
Proof.
  unfold do_count. rewrite do_count_from_spec.
  - simpl. unfold values, weekly_counts. rewrite !map_map. reflexivity.
  - simpl. rewrite map_map. simpl. rewrite map_id.
    apply weeks_from_NoDup, NoDup_nil_2.
Qed.

Lemma Forall_list_filter {A} (P : A -> Prop) (f : A -> bool) l :
  Forall P l -> Forall P (List.filter f l).
Proof.
  induction 1 as [|x l Hx _ IH]; simpl; [constructor|].
  destruct (f x); [constructor|]; assumption.
Qed.

Lemma weeks_from_nonempty l : forall ks, ks <> [] -> weeks_from l ks <> [].
Proof.
  induction l as [|c l IH]; intros ks H; simpl; [assumption|].
  apply IH. destruct ks as [|w r]; [contradiction|]. simpl.
  destruct (w =? week_of c); discriminate.
Qed.

Lemma weekly_counts_nonempty l : l <> [] -> weekly_counts l <> [].
Proof.
  destruct l as [|c l]; [contradiction|]. intros _ H.
  unfold weekly_counts in H. apply map_eq_nil in H.
  unfold weeks in H. simpl in H.
  revert H. apply weeks_from_nonempty. discriminate.
Qed.

Lemma int_mean counts :
  counts <> [] ->
  (let! m := mean counts in Ok (int m)) = Ok (int (exact_mean counts)).
Proof. destruct counts as [|x r]; [contradiction|]. reflexivity. Qed.

(** The query against its description, for a store whose commits all have
    a timestamp. *)
Lemma weekly_mean_spec commits substring y authors :
  Forall (fun c => exists t, created c = One t) commits ->
  1 <= y <= 9998 ->
  get_authors commits substring = Ok authors ->
  get_average_count_by_author_in_year commits substring y
  = match weekly_counts (matching commits authors y) with
    | [] => Raise StatisticsError
    | counts => Ok (int (exact_mean counts))
    end.
Proof.
  intros Hwf Hy Ha. unfold get_average_count_by_author_in_year.
  rewrite Ha. cbn [bind]. rewrite (iterate_over_spec commits authors y Hwf Hy).
  cbn [bind]. rewrite group_by_spec by (apply Forall_list_filter; assumption).
  cbn [bind]. rewrite do_count_groups.
  destruct (weekly_counts (matching commits authors y)) as [|x r] eqn:E.
  - reflexivity.
  - apply int_mean. discriminate.
Qed.

Lemma pystr_eqb_eq a b : pystr_eqb a b = true <-> a = b.
Proof.
  revert b. induction a as [|x a IH]; intros [|y b]; simpl;
    try (split; [discriminate|discriminate]); [tauto|].
  rewrite andb_true_iff, N.eqb_eq, IH. split.
  - intros [-> ->]. reflexivity.
  - intros H. injection H as -> ->. auto.
Qed.

Lemma add_once_elem a seen x : x ∈ add_once a seen <-> x = a \/ x ∈ seen.
Proof.
  induction seen as [|b r IH]; simpl.
  - rewrite list_elem_of_singleton, elem_of_nil. tauto.
  - destruct (pystr_eqb a b) eqn:E.
    + apply pystr_eqb_eq in E as ->. rewrite elem_of_cons. tauto.
    + rewrite !elem_of_cons, IH. tauto.
Qed.

Lemma author_set_spec commits : forall seen,
  Forall (fun c => exists a, author c = One a) commits ->
  exists S, author_set commits seen false = Ok (S, false)
    /\ forall x, x ∈ S <-> x ∈ seen \/ exists c, c ∈ commits /\ author c = One x.
Proof.
  induction commits as [|c commits IH]; intros seen Hwf; simpl.
  - exists seen. split; [reflexivity|]. intros x. split; [auto|].
    intros [H|(c & Hc & _)]; [assumption|inversion Hc].
  - apply Forall_cons in Hwf as [[a Ha] Hwf]. rewrite Ha.
    destruct (IH (add_once a seen) Hwf) as (S & HS & Hel).
    exists S. split; [assumption|]. intros x. rewrite Hel, add_once_elem.
    split.
    + intros [[->|H]|(c' & Hc' & Hx)]; [right|left|right].
      * exists c. split; [left|assumption].
      * assumption.
      * exists c'. split; [right|]; assumption.
    + intros [H|(c' & Hc' & Hx)]; [auto|].
      apply elem_of_cons in Hc' as [->|Hc'].
      * left. left. congruence.
      * right. eauto.
Qed.

(** The authors found for a substring select the commits whose author
    contains it. *)
Lemma get_authors_spec commits substring :
  Forall (fun c => exists a, author c = One a) commits ->
  exists authors,
    get_authors commits substring = Ok authors
    /\ forall c, c ∈ commits ->
         (by_authors authors c = true
          <-> exists a, author c = One a /\ contains substring a = true).
Proof.
  intros Hwf. destruct (author_set_spec commits [] Hwf) as (S & HS & Hel).
  exists (List.filter (contains substring) S). split.
  - unfold get_authors. rewrite HS. reflexivity.
  - intros c Hc. unfold by_authors. rewrite existsb_exists. split.
    + intros (a & Hin & Hau). apply filter_In in Hin as [_ Hsub].
      unfold author_is in Hau. destruct (author c) as [|s|]; try discriminate.
      apply pystr_eqb_eq in Hau as ->. eauto.
    + intros (a & Ha & Hsub). exists a. split.
      * apply filter_In. split; [|assumption]. apply list_elem_of_In.
        apply Hel. right. eauto.
      * unfold author_is. rewrite Ha. apply pystr_eqb_eq. reflexivity.
Qed.

(** C5. When no commit matches the authors and the year, the query does
    not return: [statistics.mean] is called on no data and raises
    [StatisticsError], which nothing catches. *)
Theorem weekly_mean_of_nothing commits substring y authors :
  Forall (fun c => exists t, created c = One t) commits ->
  1 <= y <= 9998 ->
  get_authors commits substring = Ok authors ->
  matching commits authors y = [] ->
  get_average_count_by_author_in_year commits substring y
  = Raise StatisticsError.
Proof.
  intros Hwf Hy Ha Hm.
  rewrite (weekly_mean_spec commits substring y authors Hwf Hy Ha), Hm.
  reflexivity.
Qed.

Lemma weekly_mean_of_nothing_witness :
  get_average_count_by_author_in_year other_commits (py "alice") 2023
  = Raise StatisticsError.
Proof.
  apply (weekly_mean_of_nothing other_commits (py "alice") 2023 [py "alice"]).
  - repeat constructor; eexists; reflexivity.
  - lia.
  - vm_compute. reflexivity.
  - vm_compute. reflexivity.
Defined.

(** C6, as amended. On a store whose commits all have an author and a
    timestamp, the authors found for the substring select the commits
    whose author contains it; the query keeps their commits inside
    [year-01-01, (year+1)-01-01), counts them per ISO week number, and,
    when there is at least one, prints the mean of the weekly counts
    truncated towards zero to an integer. *)
Theorem weekly_mean_truncated commits substring y :
  Forall (fun c => (exists t, created c = One t)
                   /\ (exists a, author c = One a)) commits ->
  1 <= y <= 9998 ->
  exists authors,
    get_authors commits substring = Ok authors
    /\ (forall c, c ∈ commits ->
          (by_authors authors c = true
           <-> exists a, author c = One a /\ contains substring a = true))
    /\ (matching commits authors y <> [] ->
        get_average_count_by_author_in_year commits substring y
        = Ok (int (exact_mean (weekly_counts (matching commits authors y))))).
Proof.
  intros Hwf Hy.
  assert (Hc : Forall (fun c => exists t, created c = One t) commits).
  { eapply Forall_impl; [exact Hwf|]. intros c [H _]. exact H. }
  assert (Hau : Forall (fun c => exists a, author c = One a) commits).
  { eapply Forall_impl; [exact Hwf|]. intros c [_ H]. exact H. }
  destruct (get_authors_spec commits substring Hau) as (authors & Ha & Hby).
  exists authors. split; [assumption|]. split; [assumption|].
  intros Hne. rewrite (weekly_mean_spec commits substring y authors Hc Hy Ha).
  pose proof (weekly_counts_nonempty _ Hne) as Hcounts.
  destruct (weekly_counts (matching commits authors y)); [contradiction|].
  reflexivity.
Qed.

Lemma weekly_mean_truncated_witness :
  get_average_count_by_author_in_year ten_commits (py "alice") 2023 = Ok 4.
Proof.
  destruct (weekly_mean_truncated ten_commits (py "alice") 2023)
    as (authors & Ha & _ & Hmean).
  - repeat constructor; eexists; reflexivity.
  - lia.
  - vm_compute in Ha. injection Ha as <-.
    rewrite Hmean; [vm_compute; reflexivity|vm_compute; discriminate].
Defined.

(** C6, as stated, fails: with two commits in one week and one in the
    next the mean of the weekly counts is 3/2, and the query prints 1. *)
Lemma weekly_mean_not_exact :
  ~ exists r,
      get_average_count_by_author_in_year three_commits (py "alice") 2023 = Ok r
      /\ (inject_Z r
          == exact_mean (weekly_counts (matching three_commits [py "alice"] 2023)))%Q.
Proof.
  intros (r & Hr & Hq). vm_compute in Hr. injection Hr as <-.
  vm_compute in Hq. discriminate.
Qed.

(** * Further properties of the code *)

(** ** Lines of a command *)

Lemma split_on_no_sep sep s : Forall (fun l => sep ∉ l) (split_on sep s).
Proof.
  induction s as [|c r IH]; simpl.
  - constructor; [|constructor]. intros H. inversion H.
  - destruct (N.eqb_spec c sep) as [->|Hne].
    + constructor; [|assumption]. intros H. inversion H.
    + destruct (split_on sep r) as [|h t]; [constructor; [|constructor]|].
      * intros H. apply list_elem_of_singleton in H. congruence.
      * apply Forall_cons in IH as [Hh Ht]. constructor; [|assumption].
        intros H. apply elem_of_cons in H as [H|H]; [congruence|contradiction].
Qed.

(** Joining what [split] returned gives the text back. *)
Lemma join_split_on sep s : join [sep] (split_on sep s) = s.
Proof.
  induction s as [|c r IH]; simpl; [reflexivity|].
  destruct (N.eqb_spec c sep) as [->|Hne].
  - pose proof (split_on_nonempty sep r) as Hn.
    destruct (split_on sep r) as [|h t]; [contradiction|].
    simpl in *. rewrite IH. reflexivity.
  - pose proof (split_on_nonempty sep r) as Hn.
    destruct (split_on sep r) as [|h t]; [contradiction|].
    destruct t as [|h' t]; simpl in *; rewrite <- IH; reflexivity.
Qed.

Lemma drop_while_elem {A} (p : A -> bool) l x : x ∈ drop_while p l -> x ∈ l.
Proof.
  induction l as [|a l IH]; simpl; [auto|].
  destruct (p a); [|auto]. intros H. right. auto.
Qed.

Lemma strip_by_elem p s x : x ∈ strip_by p s -> x ∈ s.
Proof.
  unfold strip_by. intros H.
  apply list_elem_of_In, in_rev, list_elem_of_In, drop_while_elem in H.
  apply list_elem_of_In, in_rev, list_elem_of_In, drop_while_elem in H.
  assumption.
Qed.

Lemma run_stages_length {A B} (s : stages A B) : forall l out,
  run_stages s l = Ok out -> length out = length l.
Proof.
  induction s as [A|A B C f rest IH]; intros l out H; simpl in H.
  - injection H as <-. reflexivity.
  - destruct (map_r f l) as [l'|e] eqn:E; simpl in H; [|discriminate].
    rewrite (IH l' out H). apply (map_r_length f l l' E).
Qed.

(** X1. Whenever the output of the command decodes, [run_cmd] without
    transforms returns at least one line, no line holds a newline, and
    the lines joined by newlines are the output without its surrounding
    whitespace: the first line does not start and the last does not end
    with whitespace.  Output that is empty or all whitespace gives one
    empty line, not an empty list. *)
Theorem run_cmd_lines
    (exec : list pystr -> completed) (cmd : cmd_t) (args : option Commit)
    (av : list pystr) (text : pystr) (w : world) :
  argv cmd args = Ok av ->
  utf8_decode (stdout (exec av)) = Some text ->
  exists lines,
    run_cmd exec cmd args nostage id w = (Ok lines, spawn w)
    /\ lines <> []
    /\ Forall (fun l => NEWLINE ∉ l) lines
    /\ join [NEWLINE] lines = strip text
    /\ (forall x, head (join [NEWLINE] lines) = Some x -> isspace x = false)
    /\ (forall x, last (join [NEWLINE] lines) = Some x -> isspace x = false)
    /\ (strip text = [] -> lines = [[]]).
Proof.
  intros Hav Hdec. exists (split_on NEWLINE (strip text)).
  split; [|split; [|split; [|split; [|split; [|split]]]]].
  - unfold run_cmd. rewrite Hav, Hdec. reflexivity.
  - apply split_on_nonempty.
  - apply split_on_no_sep.
  - apply join_split_on.
  - intros x. rewrite join_split_on. apply strip_by_head.
  - intros x. rewrite join_split_on. apply strip_by_last.
  - intros ->. reflexivity.
Qed.

Lemma run_cmd_lines_witness :
  exists lines,
    run_cmd git_two (PerCommit CMD_GET_COMMIT_FILES)
      (Some (new_commit (py "a1b2c3d"))) nostage id no_cache
    = (Ok lines, spawn no_cache)
    /\ lines <> []
    /\ Forall (fun l => NEWLINE ∉ l) lines
    /\ join [NEWLINE] lines = strip (py "src/main.py" ++ [NEWLINE]
                                     ++ py "README.txt" ++ [NEWLINE])
    /\ (forall x, head (join [NEWLINE] lines) = Some x -> isspace x = false)
    /\ (forall x, last (join [NEWLINE] lines) = Some x -> isspace x = false)
    /\ (strip (py "src/main.py" ++ [NEWLINE] ++ py "README.txt" ++ [NEWLINE])
        = [] -> lines = [[]]).
Proof.
  apply (run_cmd_lines git_two (PerCommit CMD_GET_COMMIT_FILES)
           (Some (new_commit (py "a1b2c3d")))
           (split_ws (CMD_GET_COMMIT_FILES (new_commit (py "a1b2c3d"))))).
  - reflexivity.
  - vm_compute. reflexivity.
Defined.

(** The first element of what a chain of line transforms returns is what
    the chain gives for the first line alone. *)
Lemma run_stages_head {A B} (s : stages A B) : forall l0 r out,
  run_stages s (l0 :: r) = Ok out ->
  exists x r', out = x :: r' /\ run_stages s [l0] = Ok [x].
Proof.
  induction s as [A|A B C f rest IH]; intros l0 r out H; simpl in H.
  - injection H as <-. exists l0, r. split; reflexivity.
  - destruct (f l0) as [y|e] eqn:Ef; simpl in H; [|discriminate].
    destruct (map_r f r) as [ys|e]; simpl in H; [|discriminate].
    destruct (IH y ys out H) as (x & r' & -> & Hx).
    exists x, r'. split; [reflexivity|].
    simpl. rewrite Ef. simpl. exact Hx.
Qed.

(** X2. With [first] as the reduction, [run_cmd] never hands back a list:
    whatever the line transforms are, a call that returns gives exactly
    one value, and that value is what the transforms give for the first
    line of the output, the output being decoded, stripped and cut at
    newlines. *)
Theorem run_cmd_first_is_scalar
    (exec : list pystr -> completed) {A : Type} (cmd : cmd_t)
    (args : option Commit) (line : stages pystr A) (v : attr A) (w w' : world) :
  run_cmd exec cmd args line first w = (Ok v, w') ->
  exists av text l0 x,
    argv cmd args = Ok av
    /\ utf8_decode (stdout (exec av)) = Some text
    /\ head (split_on NEWLINE (strip text)) = Some l0
    /\ run_stages line [l0] = Ok [x]
    /\ v = One x.
Proof.
  intros H.
  unfold run_cmd in H. destruct (argv cmd args) as [av|e]; [|discriminate].
  destruct (utf8_decode _) as [text|] eqn:Hdec; [|discriminate].
  pose proof (split_on_nonempty NEWLINE (strip text)) as Hn.
  destruct (split_on NEWLINE (strip text)) as [|l0 r] eqn:Hl; [contradiction|].
  destruct (run_stages line (l0 :: r)) as [out|e] eqn:E; simpl in H;
    [|discriminate].
  injection H as <- _.
  destruct (run_stages_head line l0 r out E) as (x & r' & -> & Hx).
  exists av, text, l0, x.
  split; [reflexivity|]. split; [exact Hdec|].
  split; [rewrite Hl; reflexivity|]. split; [exact Hx|reflexivity].
Qed.

Lemma run_cmd_first_is_scalar_witness :
  exists av text l0 x,
    argv (PerCommit CMD_GET_COMMIT_AUTHOR) (Some (new_commit (py "a1b2c3d")))
    = Ok av
    /\ utf8_decode (stdout (git_two av)) = Some text
    /\ head (split_on NEWLINE (strip text)) = Some l0
    /\ run_stages (stage (pure_stage chomp_quotes) nostage) [l0] = Ok [x]
    /\ One (py "alice@example.org") = One x.
Proof.
  apply (run_cmd_first_is_scalar git_two (PerCommit CMD_GET_COMMIT_AUTHOR)
           (Some (new_commit (py "a1b2c3d")))
           (stage (pure_stage chomp_quotes) nostage)
           (One (py "alice@example.org")) no_cache (spawn no_cache)).
  vm_compute. reflexivity.
Defined.

(** ** What a built store holds *)

Lemma output_no_newline exec cmdline lines :
  output exec cmdline = Some lines -> Forall (fun l => NEWLINE ∉ l) lines.
Proof.
  unfold output. destruct (utf8_decode _) as [text|]; [|discriminate].
  intros H. injection H as <-. apply split_on_no_sep.
Qed.

(** X3. In a store built without a cache, every commit has at least one
    entry in [files] and no entry holds a newline; its author is one
    string (never a list) without a newline and without a double quote at
    either end; its message is a string that neither starts nor ends with
    whitespace. *)
Theorem built_fields_are_clean
    (exec : list pystr -> completed) (parse : pystr -> option datetime)
    (dumps : list Commit -> list byte)
    (loads : list byte -> option (list Commit)) (pick : nat -> nat -> nat)
    (w w' : world) (store : list Commit) :
  artifact w = None ->
  get_or_create_commits exec parse dumps loads pick false w = (Ok store, w') ->
  Forall (fun c =>
    (files c <> [] /\ Forall (fun f => NEWLINE ∉ f) (files c))
    /\ (exists a, author c = One a /\ (NEWLINE ∉ a)
          /\ head a <> Some DQUOTE /\ last a <> Some DQUOTE)
    /\ (exists m, message c = Some m
          /\ (forall x, head m = Some x -> isspace x = false)
          /\ (forall x, last m = Some x -> isspace x = false))) store.
Proof.
  intros Hw Hb.
  destruct (build_miss_ok exec parse dumps loads pick w store w' Hw Hb) as [Hv _].
  destruct (ingest_value_inv exec parse store Hv) as (_ & _ & _ & Hall).
  eapply Forall_impl; [exact Hall|]. clear. intros c
    ((lf & Hf & Hfiles) & (la & Ha & Hau) & _ & (lm & _ & Hm)).
  split; [|split].
  - rewrite Hfiles. split.
    + apply (output_nonempty _ _ _ Hf).
    + apply (output_no_newline _ _ _ Hf).
  - pose proof (output_nonempty _ _ _ Ha) as Hne.
    pose proof (output_no_newline _ _ _ Ha) as Hnl.
    destruct la as [|l0 la]; [contradiction|].
    exists (chomp_quotes l0). split; [exact Hau|].
    apply Forall_cons in Hnl as [Hnl _].
    split; [|apply chomp_quotes_ends].
    intros Hin. apply Hnl. unfold chomp_quotes in Hin.
    apply strip_by_elem in Hin. assumption.
  - eexists. split; [exact Hm|]. split; intros x.
    + apply strip_by_head.
    + apply strip_by_last.
Qed.

Lemma built_fields_are_clean_witness :
  Forall (fun c =>
    (files c <> [] /\ Forall (fun f => NEWLINE ∉ f) (files c))
    /\ (exists a, author c = One a /\ (NEWLINE ∉ a)
          /\ head a <> Some DQUOTE /\ last a <> Some DQUOTE)
    /\ (exists m, message c = Some m
          /\ (forall x, head m = Some x -> isspace x = false)
          /\ (forall x, last m = Some x -> isspace x = false))) two_store.
Proof.
  apply (built_fields_are_clean git_two parse_ci codec_dumps codec_loads
           youngest_first no_cache
           {| artifact := Some (codec_dumps two_store); spawned := 9 |}).
  - reflexivity.
  - vm_compute. reflexivity.
Defined.

(** ** The cache file across a build *)

(** X4. A build that finds no cache file is all or nothing for the cache:
    when it returns a store the file holds the dump of exactly that store,
    and when it raises no file has been written. *)
Theorem build_writes_cache_or_nothing
    (exec : list pystr -> completed) (parse : pystr -> option datetime)
    (dumps : list Commit -> list byte)
    (loads : list byte -> option (list Commit)) (pick : nat -> nat -> nat)
    (w w' : world) (r : result (list Commit)) :
  artifact w = None ->
  get_or_create_commits exec parse dumps loads pick false w = (r, w') ->
  match r with
  | Ok store => artifact w' = Some (dumps store)
  | Raise _ => artifact w' = None
  end.
Proof.
  intros Hw. rewrite (build_miss exec parse dumps loads pick w Hw). intros H.
  pose proof (ingest_spec exec parse dumps pick w) as HS.
  destruct (ingest_value exec parse) as [store0|e].
  - rewrite HS in H. injection H as <- <-. reflexivity.
  - destruct HS as (e' & w1 & HS & Hart). rewrite HS in H.
    injection H as <- <-. rewrite Hart. exact Hw.
Qed.

Lemma build_writes_cache_or_nothing_witness :
  artifact {| artifact := Some (codec_dumps two_store); spawned := 9 |}
  = Some (codec_dumps two_store).
Proof.
  apply (build_writes_cache_or_nothing git_two parse_ci codec_dumps
           codec_loads in_order no_cache
           {| artifact := Some (codec_dumps two_store); spawned := 9 |}
           (Ok two_store)).
  - reflexivity.
  - vm_compute. reflexivity.
Defined.

(** X5. A forced rebuild deletes the cache file before it ingests: when
    the ingestion then fails, the call raises and the file that existed
    before is gone. *)
Theorem failed_forced_rebuild_loses_cache
    (exec : list pystr -> completed) (parse : pystr -> option datetime)
    (dumps : list Commit -> list byte)
    (loads : list byte -> option (list Commit)) (pick : nat -> nat -> nat)
    (w : world) (bs : list byte) (e : exn) :
  artifact w = Some bs ->
  ingest_value exec parse = Raise e ->
  exists e' w',
    get_or_create_commits exec parse dumps loads pick true w = (Raise e', w')
    /\ artifact w' = None.
Proof.
  intros Hw Hv.
  pose proof (ingest_spec exec parse dumps pick
                {| artifact := None; spawned := spawned w |}) as HS.
  rewrite Hv in HS. destruct HS as (e' & w1 & HS & Hart).
  exists e', w1. split; [|exact Hart].
  unfold get_or_create_commits, bindM at 1, os_remove.
  rewrite Hw. unfold bindM at 1, isfile. simpl. exact HS.
Qed.

Lemma failed_forced_rebuild_loses_cache_witness :
  exists e' w',
    get_or_create_commits git_bad_author parse_ci codec_dumps codec_loads
      in_order true {| artifact := Some (codec_dumps two_store); spawned := 0 |}
    = (Raise e', w')
    /\ artifact w' = None.
Proof.
  apply (failed_forced_rebuild_loses_cache git_bad_author parse_ci codec_dumps
           codec_loads in_order
           {| artifact := Some (codec_dumps two_store); spawned := 0 |}
           (codec_dumps two_store) UnicodeDecodeError).
  - reflexivity.
  - vm_compute. reflexivity.
Defined.

(** ** Stacked filters *)

Lemma passes_app f1 f2 c :
  passes (f1 ++ f2) c
  = let! b := passes f1 c in if (b : bool) then passes f2 c else Ok false.
Proof.
  induction f1 as [|fn f1 IH]; simpl; [reflexivity|].
  destruct (fn c) as [[|]|e]; simpl; [exact IH|reflexivity|reflexivity].
Qed.

Lemma same_outcome_refl {A} (r : result A) : same_outcome r r.
Proof. destruct r; simpl; auto. Qed.

(** X6. Filtering by a list of predicates in one call gives what filtering
    by the first part and then filtering the result by the rest gives:
    the same commits in the same order, or an exception in both. *)
Theorem iterate_over_in_two_steps
    (commits : list Commit) (f1 f2 : list (Commit -> result bool)) :
  same_outcome (iterate_over commits (f1 ++ f2))
    (let! l := iterate_over commits f1 in iterate_over l f2).
Proof.
  unfold iterate_over.
  induction commits as [|c r IH]; simpl; [reflexivity|].
  rewrite passes_app.
  destruct (passes f1 c) as [[|]|e]; simpl; [| |exact I].
  - destruct (filter_r (passes (f1 ++ f2)) r) as [lr|e1];
      destruct (filter_r (passes f1) r) as [l1|e2]; simpl in *.
    + destruct (passes f2 c) as [b|e]; simpl; [|exact I].
      destruct (filter_r (passes f2) l1) as [l2|e2]; simpl in *;
        [subst; reflexivity|contradiction].
    + contradiction.
    + destruct (passes f2 c) as [b|e]; simpl; [|exact I].
      destruct (filter_r (passes f2) l1) as [l2|e2]; simpl in *;
        [contradiction|exact I].
    + destruct (passes f2 c) as [b|e]; simpl; exact I.
  - destruct (filter_r (passes (f1 ++ f2)) r) as [lr|e1];
      destruct (filter_r (passes f1) r) as [l1|e2]; simpl in *;
      assumption.
Qed.

Lemma passes_accepted fns c b :
  passes fns c = Ok b -> b = forallb (accepted c) fns.
Proof.
  induction fns as [|fn fns IH]; simpl; intros H.
  - congruence.
  - unfold accepted at 1. destruct (fn c) as [[|]|e]; simpl in *.
    + auto.
    + congruence.
    + discriminate.
Qed.

(** X7. When [iterate_over] returns, the result is the commits that every
    predicate accepted, in the order of the store; and every predicate
    that was reached on a commit returned without raising. *)
Theorem iterate_over_keeps_accepted
    (commits : list Commit) (fns : list (Commit -> result bool))
    (l : list Commit) :
  iterate_over commits fns = Ok l ->
  l = List.filter (fun c => forallb (accepted c) fns) commits
  /\ Forall (fun c => exists b, passes fns c = Ok b) commits.
Proof.
  unfold iterate_over. revert l.
  induction commits as [|c r IH]; simpl; intros l H.
  - split; [congruence|constructor].
  - destruct (passes fns c) as [b|e] eqn:Hp; simpl in H; [|discriminate].
    destruct (filter_r (passes fns) r) as [lr|e]; simpl in H; [|discriminate].
    destruct (IH lr eq_refl) as [-> Hall].
    rewrite <- (passes_accepted fns c b Hp).
    split; [congruence|]. constructor; [eauto|assumption].
Qed.

Lemma iterate_over_keeps_accepted_witness :
  [commit_at "d0" "alice" 2023 1 9; commit_at "d1" "alice" 2023 1 4;
   commit_at "d2" "alice" 2023 1 3]
  = List.filter
      (fun c => forallb (accepted c) [whole_year 2023; only_authors [py "alice"]])
      (three_commits ++ other_commits)
  /\ Forall (fun c => exists b,
               passes [whole_year 2023; only_authors [py "alice"]] c = Ok b)
       (three_commits ++ other_commits).
Proof.
  apply (iterate_over_keeps_accepted (three_commits ++ other_commits)
           [whole_year 2023; only_authors [py "alice"]]).
  vm_compute. reflexivity.
Defined.

(** ** The authors of a store *)

Lemma add_once_NoDup a seen : NoDup seen -> NoDup (add_once a seen).
Proof.
  induction seen as [|b r IH]; simpl; intros H.
  - apply NoDup_singleton.
  - destruct (pystr_eqb a b) eqn:E; [assumption|].
    apply NoDup_cons in H as [Hb Hr]. apply NoDup_cons. split; [|auto].
    intros Hin. apply add_once_elem in Hin as [->|Hin]; [|contradiction].
    assert (pystr_eqb a a = true) by (apply pystr_eqb_eq; reflexivity).
    congruence.
Qed.

Lemma author_set_NoDup commits : forall seen b S b',
  NoDup seen -> author_set commits seen b = Ok (S, b') -> NoDup S.
Proof.
  induction commits as [|c r IH]; simpl; intros seen b S b' Hnd H.
  - congruence.
  - destruct (author c) as [|s|l]; [| |discriminate].
    + apply (IH _ _ _ _ Hnd H).
    + apply (IH _ _ _ _ (add_once_NoDup s seen Hnd) H).
Qed.

Lemma NoDup_list_filter {A} (f : A -> bool) (l : list A) :
  NoDup l -> NoDup (List.filter f l).
Proof.
  induction l as [|x l IH]; simpl; intros H; [constructor|].
  apply NoDup_cons in H as [Hx Hl]. destruct (f x); [|auto].
  apply NoDup_cons. split; [|auto].
  intros Hin. apply list_elem_of_In, filter_In in Hin as [Hin _].
  apply Hx, list_elem_of_In. assumption.
Qed.

(** X8. For a store whose commits all have an author string,
    [get_authors] returns every author of the store that contains the
    substring, each exactly once, and nothing else. *)
Theorem get_authors_distinct_matches
    (commits : list Commit) (substring : pystr) :
  Forall (fun c => exists a, author c = One a) commits ->
  exists authors,
    get_authors commits substring = Ok authors
    /\ NoDup authors
    /\ forall a, a ∈ authors
         <-> contains substring a = true
             /\ exists c, c ∈ commits /\ author c = One a.
Proof.
  intros Hall. unfold get_authors.
  destruct (author_set_spec commits [] Hall) as (S & HS & Hmem).
  rewrite HS. simpl. eexists. split; [reflexivity|]. split.
  - apply NoDup_list_filter.
    apply (author_set_NoDup commits [] false S false); [constructor|exact HS].
  - intros a. rewrite list_elem_of_In, filter_In, <- list_elem_of_In, Hmem.
    split.
    + intros [[Hin|Hc] Hsub]; [inversion Hin|]. split; assumption.
    + intros [Hsub Hc]. split; [right|]; assumption.
Qed.

Lemma get_authors_distinct_matches_witness :
  exists authors,
    get_authors ten_commits (py "ali") = Ok authors
    /\ NoDup authors
    /\ forall a, a ∈ authors
         <-> contains (py "ali") a = true
             /\ exists c, c ∈ ten_commits /\ author c = One a.
Proof.
  apply (get_authors_distinct_matches ten_commits (py "ali")).
  repeat constructor; eexists; reflexivity.
Defined.

Lemma author_set_missing commits : forall seen b,
  (exists c, c ∈ commits /\ forall a, author c <> One a) ->
  author_set commits seen b = Raise TypeError
  \/ exists S, author_set commits seen b = Ok (S, true).
Proof.
  induction commits as [|c r IH]; intros seen b (c0 & Hin & Hno).
  - inversion Hin.
  - simpl. apply elem_of_cons in Hin as [->|Hin].
    + destruct (author c) as [|s|l]; [| |left; reflexivity].
      * clear. revert seen. induction r as [|c' r IH]; intros seen; simpl.
        -- right. eexists. reflexivity.
        -- destruct (author c'); [apply IH|apply IH|left; reflexivity].
      * exfalso. apply (Hno s). reflexivity.
    + destruct (author c) as [|s|l]; [| |left; reflexivity];
        apply IH; exists c0; split; assumption.
Qed.

(** X9. When some commit of the store has no author string (the attribute
    is still [None], or a list), [get_authors] raises [TypeError] whatever
    the substring is. *)
Theorem get_authors_needs_every_author
    (commits : list Commit) (substring : pystr) (c : Commit) :
  c ∈ commits ->
  (forall a, author c <> One a) ->
  get_authors commits substring = Raise TypeError.
Proof.
  intros Hin Hno. unfold get_authors.
  destruct (author_set_missing commits [] false) as [H|(S & H)].
  - exists c. split; assumption.
  - rewrite H. reflexivity.
  - rewrite H. reflexivity.
Qed.

Lemma get_authors_needs_every_author_witness :
  get_authors (three_commits ++ [new_commit (py "f00")]) (py "alice")
  = Raise TypeError.
Proof.
  apply (get_authors_needs_every_author
           (three_commits ++ [new_commit (py "f00")]) (py "alice")
           (new_commit (py "f00"))).
  - apply elem_of_app. right. apply list_elem_of_singleton. reflexivity.
  - intros a H. discriminate H.
Defined.

(** ** Grouping and counting with any key *)

Section Grouping.

Variables (K : Type) (eqb : K -> K -> bool) (key : Commit -> K).
Hypothesis eqb_eq : forall a b, eqb a b = true <-> a = b.

Local Abbreviation grp k l := (List.filter (fun c => eqb (key c) k) l).

Lemma eqb_same a : eqb a a = true.
Proof. apply eqb_eq. reflexivity. Qed.

Lemma eqb_other a b : a <> b -> eqb a b = false.
Proof.
  intros H. destruct (eqb a b) eqn:E; [|reflexivity].
  apply eqb_eq in E. contradiction.
Qed.

Lemma grp_snoc k p c :
  grp k (p ++ [c]) = grp k p ++ (if eqb (key c) k then [c] else []).
Proof. rewrite List.filter_app. reflexivity. Qed.

Lemma grp_none k (p : list Commit) :
  (forall x, x ∈ p -> key x <> k) -> grp k p = [].
Proof.
  induction p as [|a p IH]; intros H; simpl; [reflexivity|].
  rewrite eqb_other; [|apply H; left].
  apply IH. intros x Hx. apply H. right. assumption.
Qed.

Lemma add_key_elem k (ks : list K) x :
  x ∈ add_key eqb k ks <-> x = k \/ x ∈ ks.
Proof.
  induction ks as [|w r IH]; simpl.
  - rewrite list_elem_of_singleton. split; [auto|].
    intros [H|H]; [assumption|inversion H].
  - destruct (eqb w k) eqn:E.
    + apply eqb_eq in E. subst w. rewrite elem_of_cons. tauto.
    + rewrite !elem_of_cons, IH. tauto.
Qed.

Lemma add_key_NoDup k (ks : list K) : NoDup ks -> NoDup (add_key eqb k ks).
Proof.
  induction ks as [|w r IH]; simpl; intros H.
  - apply NoDup_singleton.
  - destruct (eqb w k) eqn:E; [assumption|].
    apply NoDup_cons in H as [Hw Hr]. apply NoDup_cons. split; [|auto].
    rewrite add_key_elem. intros [->|Hin]; [|contradiction].
    rewrite eqb_same in E. discriminate.
Qed.

Lemma dd_append_groups c p (ks : list K) :
  NoDup ks ->
  (key c ∉ ks -> grp (key c) p = []) ->
  dd_append eqb (key c) c (map (fun k => (k, grp k p)) ks)
  = map (fun k => (k, grp k (p ++ [c]))) (add_key eqb (key c) ks).
Proof.
  induction ks as [|w r IH]; intros Hnd Hfresh; simpl.
  - rewrite grp_snoc, Hfresh, eqb_same; [reflexivity|]. intros H. inversion H.
  - apply NoDup_cons in Hnd as [Hw Hr].
    destruct (eqb w (key c)) eqn:E; simpl.
    + apply eqb_eq in E. subst w. rewrite grp_snoc, eqb_same.
      f_equal. apply map_ext_in. intros x Hx. rewrite grp_snoc.
      rewrite eqb_other; [rewrite app_nil_r; reflexivity|].
      intros Heq. apply Hw. apply list_elem_of_In. congruence.
    + rewrite grp_snoc. rewrite (eqb_other (key c) w).
      * rewrite app_nil_r. f_equal. apply IH; [assumption|].
        intros Hnin. apply Hfresh. rewrite elem_of_cons.
        intros [H|H]; [|contradiction].
        rewrite <- H, eqb_same in E. discriminate.
      * intros Heq. rewrite Heq, eqb_same in E. discriminate.
Qed.

Lemma group_by_from_groups (get_key : Commit -> result K) l : forall p ks,
  Forall (fun c => get_key c = Ok (key c)) l ->
  NoDup ks ->
  (forall x, x ∈ p -> key x ∈ ks) ->
  group_by_from eqb get_key l (map (fun k => (k, grp k p)) ks)
  = Ok (map (fun k => (k, grp k (p ++ l)))
          (fold_left (fun ks k => add_key eqb k ks) (map key l) ks)).
Proof.
  induction l as [|c l IH]; intros p ks Hwf Hnd Hcov; simpl.
  - rewrite app_nil_r. reflexivity.
  - apply Forall_cons in Hwf as [Hc Hwf]. rewrite Hc. simpl.
    rewrite dd_append_groups.
    + rewrite (IH (p ++ [c]) (add_key eqb (key c) ks)).
      * rewrite <- app_assoc. reflexivity.
      * assumption.
      * apply add_key_NoDup. assumption.
      * intros x Hx. rewrite add_key_elem.
        apply elem_of_app in Hx as [Hx|Hx]; [right; auto|].
        apply list_elem_of_singleton in Hx. left. congruence.
    + assumption.
    + intros Hnin. apply grp_none. intros x Hx Heq.
      apply Hnin. rewrite <- Heq. apply Hcov. assumption.
Qed.

Lemma first_seen_from_NoDup (l : list K) : forall ks,
  NoDup ks -> NoDup (fold_left (fun ks k => add_key eqb k ks) l ks).
Proof.
  induction l as [|k l IH]; intros ks H; simpl; [assumption|].
  apply IH, add_key_NoDup, H.
Qed.

Lemma first_seen_from_elem (l : list K) : forall ks x,
  x ∈ fold_left (fun ks k => add_key eqb k ks) l ks <-> x ∈ ks \/ x ∈ l.
Proof.
  induction l as [|k l IH]; intros ks x; simpl.
  - split; [auto|]. intros [H|H]; [assumption|inversion H].
  - rewrite IH, add_key_elem, elem_of_cons. tauto.
Qed.

(** Every commit falls into exactly one group. *)
Lemma groups_cover (l : list Commit) (ks : list K) :
  NoDup ks ->
  (forall c, c ∈ l -> key c ∈ ks) ->
  sum_Z (map (fun k => Z.of_nat (length (grp k l))) ks) = Z.of_nat (length l).
Proof.
  intros Hnd. induction l as [|c l IH]; intros Hcov.
  - simpl. clear. induction ks as [|k ks IH]; simpl; [reflexivity|].
    rewrite IH. reflexivity.
  - assert (Hone : forall ks', NoDup ks' ->
      sum_Z (map (fun k => Z.of_nat (length (grp k (c :: l)))) ks')
      = sum_Z (map (fun k => Z.of_nat (length (grp k l))) ks')
        + (if existsb (eqb (key c)) ks' then 1 else 0)).
    { clear -eqb_eq. induction ks' as [|k ks' IH]; intros Hnd; [reflexivity|].
      apply NoDup_cons in Hnd as [Hk Hnd]. cbn [map sum_Z fold_right existsb].
      unfold sum_Z in IH. rewrite (IH Hnd). cbn [List.filter].
      destruct (eqb (key c) k) eqn:E; cbn [orb]; [|lia].
      apply eqb_eq in E. subst k.
      destruct (existsb (eqb (key c)) ks') eqn:B; [|cbn [length]; lia].
      exfalso. apply existsb_exists in B as (x & Hx & Heq).
      apply eqb_eq in Heq. subst x. apply Hk, list_elem_of_In, Hx. }
    rewrite (Hone ks Hnd), IH.
    + assert (existsb (eqb (key c)) ks = true) as ->.
      { apply existsb_exists. exists (key c). split; [|apply eqb_same].
        apply list_elem_of_In, Hcov. left. }
      cbn [length]. lia.
    + intros x Hx. apply Hcov. right. assumption.
Qed.

End Grouping.

(** X10. With a key function that returns for every commit, [group_by]
    returns one entry per distinct key, in the order in which the keys
    first occur in the store; the group of a key holds exactly the commits
    with that key, in store order.  So no key occurs twice, no group is
    empty and every commit is in the group of its key. *)
Theorem group_by_partitions
    {K : Type} (eqb : K -> K -> bool) (get_key : Commit -> result K)
    (key : Commit -> K) (commits : list Commit) :
  (forall a b, eqb a b = true <-> a = b) ->
  Forall (fun c => get_key c = Ok (key c)) commits ->
  group_by eqb get_key commits
  = Ok (map (fun k => (k, List.filter (fun c => eqb (key c) k) commits))
          (first_seen eqb (map key commits)))
  /\ NoDup (first_seen eqb (map key commits))
  /\ (forall k, k ∈ first_seen eqb (map key commits)
        <-> exists c, c ∈ commits /\ key c = k).
Proof.
  intros Heq Hall. split; [|split].
  - unfold group_by, first_seen.
    apply (group_by_from_groups K eqb key Heq get_key commits [] [] Hall).
    + apply NoDup_nil_2.
    + intros x Hx. inversion Hx.
  - apply (first_seen_from_NoDup K eqb Heq). apply NoDup_nil_2.
  - intros k. unfold first_seen.
    rewrite (first_seen_from_elem K eqb Heq), list_elem_of_fmap. split.
    + intros [H|(c & -> & Hc)]; [inversion H|]. exists c. auto.
    + intros (c & Hc & <-). right. exists c. auto.
Qed.

Lemma group_by_partitions_witness :
  group_by Z.eqb week_key ten_commits
  = Ok (map (fun k => (k, List.filter (fun c => week_of c =? k) ten_commits))
          (first_seen Z.eqb (map week_of ten_commits)))
  /\ NoDup (first_seen Z.eqb (map week_of ten_commits))
  /\ (forall k, k ∈ first_seen Z.eqb (map week_of ten_commits)
        <-> exists c, c ∈ ten_commits /\ week_of c = k).
Proof.
  apply (group_by_partitions Z.eqb week_key week_of ten_commits).
  - intros a b. apply Z.eqb_eq.
  - repeat constructor.
Defined.

Lemma counter_update_total {K} (eqb : K -> K -> bool) k n counter :
  sum_Z (values (counter_update eqb k n counter))
  = sum_Z (values counter) + n.
Proof.
  unfold values, sum_Z.
  induction counter as [|[k' v] r IH]; simpl; [lia|].
  destruct (eqb k' k); simpl; [lia|]. rewrite IH. lia.
Qed.

Lemma do_count_from_total {K K'} (eqb : K' -> K' -> bool) (fn : K -> K')
    (grouped : list (K * list Commit)) : forall counter,
  sum_Z (values (do_count_from eqb fn grouped counter))
  = sum_Z (values counter)
    + sum_Z (map (fun g => Z.of_nat (length (snd g))) grouped).
Proof.
  induction grouped as [|[k cs] r IH]; intros counter; simpl.
  - lia.
  - rewrite IH, counter_update_total. simpl. lia.
Qed.

(** X11. [do_count] keeps the total: whatever the key transform is, and
    however many keys it merges, the counts add up to the number of
    commits in all the groups. *)
Theorem do_count_keeps_total
    {K K' : Type} (eqb : K' -> K' -> bool) (fn : K -> K')
    (grouped : list (K * list Commit)) :
  sum_Z (values (do_count eqb fn grouped))
  = sum_Z (map (fun g => Z.of_nat (length (snd g))) grouped).
Proof.
  unfold do_count. rewrite do_count_from_total. reflexivity.
Qed.

(** X12. Grouping the commits by any key and counting the groups, with
    any key transform, accounts for every commit exactly once: the counts
    add up to the size of the store. *)
Theorem counting_groups_counts_all
    {K K' : Type} (eqb : K -> K -> bool) (get_key : Commit -> result K)
    (key : Commit -> K) (eqb' : K' -> K' -> bool) (fn : K -> K')
    (commits : list Commit) :
  (forall a b, eqb a b = true <-> a = b) ->
  Forall (fun c => get_key c = Ok (key c)) commits ->
  exists grouped,
    group_by eqb get_key commits = Ok grouped
    /\ sum_Z (values (do_count eqb' fn grouped)) = Z.of_nat (length commits).
Proof.
  intros Heq Hall. eexists. split.
  - unfold group_by, first_seen.
    apply (group_by_from_groups K eqb key Heq get_key commits [] [] Hall).
    + apply NoDup_nil_2.
    + intros x Hx. inversion Hx.
  - unfold do_count. rewrite do_count_from_total. simpl.
    rewrite map_map. simpl.
    apply (groups_cover K eqb key Heq).
    + apply (first_seen_from_NoDup K eqb Heq). apply NoDup_nil_2.
    + intros c Hc. apply (first_seen_from_elem K eqb Heq). right.
      apply list_elem_of_fmap. exists c. auto.
Qed.

Lemma counting_groups_counts_all_witness :
  exists grouped,
    group_by Z.eqb week_key ten_commits = Ok grouped
    /\ sum_Z (values (do_count Z.eqb (fun w => w mod 2) grouped))
       = Z.of_nat (length ten_commits).
Proof.
  apply (counting_groups_counts_all Z.eqb week_key week_of Z.eqb
           (fun w => w mod 2) ten_commits).
  - intros a b. apply Z.eqb_eq.
  - repeat constructor.
Defined.

(** ** The year filter *)

Lemma mkdate_overflow y m d :
  y < -2147483648 \/ 2147483647 < y -> mkdate y m d = Raise OverflowError.
Proof.
  intros H. unfold mkdate, fits_int.
  destruct (Z.leb_spec (-2147483648) y); destruct (Z.leb_spec y 2147483647);
    simpl; try reflexivity; lia.
Qed.

Lemma mkdate_out_of_range y :
  -2147483648 <= y < 1 \/ 9999 < y <= 2147483647 ->
  mkdate y 1 1 = Raise ValueError.
Proof.
  intros H. unfold mkdate, fits_int, MINYEAR, MAXYEAR.
  destruct (Z.leb_spec (-2147483648) y); destruct (Z.leb_spec y 2147483647);
    destruct (Z.leb_spec 1 y); destruct (Z.leb_spec y 9999); simpl;
    try reflexivity; lia.
Qed.

(** X13. For a year from 1 to 9998 and a commit with a creation time,
    [whole_year] is the test that the commit was created in that calendar
    year. *)
Theorem whole_year_tests_the_year (y : Z) (c : Commit) (t : datetime) :
  created c = One t ->
  1 <= y <= 9998 ->
  1 <= month (dt_date t) ->
  1 <= day (dt_date t) ->
  whole_year y c = Ok (year (dt_date t) =? y).
Proof.
  intros Hc Hy Hm Hd. rewrite (whole_year_spec y c t Hc Hy).
  unfold in_window. rewrite Hc. f_equal.
  unfold date_le, date_lt. cbn [year month day].
  destruct (dt_date t) as [yy mm dd]. cbn [year month day] in *.
  destruct (Z.ltb_spec y yy); destruct (Z.eqb_spec y yy);
    destruct (Z.ltb_spec 1 mm); destruct (Z.eqb_spec 1 mm);
    destruct (Z.leb_spec 1 dd); destruct (Z.ltb_spec yy (y + 1));
    destruct (Z.eqb_spec yy (y + 1)); destruct (Z.ltb_spec mm 1);
    destruct (Z.eqb_spec mm 1); destruct (Z.ltb_spec dd 1);
    destruct (Z.eqb_spec yy y); simpl; try reflexivity; lia.
Qed.

Lemma whole_year_tests_the_year_witness :
  whole_year 2023 (commit_at "c9" "alice" 2022 6 1) = Ok (2022 =? 2023).
Proof.
  apply (whole_year_tests_the_year 2023 (commit_at "c9" "alice" 2022 6 1)
           {| dt_date := {| year := 2022; month := 6; day := 1 |};
              dt_hour := 12; dt_minute := 0; dt_second := 0;
              dt_utcoffset := 0 |}).
  - reflexivity.
  - lia.
  - simpl. lia.
  - simpl. lia.
Defined.

(** X14. The edges of [whole_year]: a year that does not fit a C [int]
    raises [OverflowError], and any other year outside 1..9999 raises
    [ValueError], both before the commit is looked at; for a year inside,
    a commit without a creation time raises [AttributeError]; and the
    year 9999 cannot be queried: a commit created before it is rejected,
    any other raises [ValueError], because the upper bound is the first
    day of the year 10000. *)
Theorem whole_year_edges (y : Z) (c : Commit) :
  (y < -2147483648 \/ 2147483647 < y -> whole_year y c = Raise OverflowError)
  /\ (-2147483648 <= y < 1 \/ 9999 < y <= 2147483647 ->
      whole_year y c = Raise ValueError)
  /\ (1 <= y <= 9999 -> (forall t, created c <> One t) ->
      whole_year y c = Raise AttributeError)
  /\ (forall t, created c = One t ->
        1 <= month (dt_date t) -> 1 <= day (dt_date t) ->
        whole_year 9999 c
        = if year (dt_date t) <? 9999 then Ok false else Raise ValueError).
Proof.
  split; [|split; [|split]].
  - intros H. unfold whole_year. rewrite mkdate_overflow by assumption.
    reflexivity.
  - intros H. unfold whole_year. rewrite mkdate_out_of_range by assumption.
    reflexivity.
  - intros Hy Hno. unfold whole_year, created_date.
    rewrite mkdate_jan1 by assumption. simpl.
    destruct (created c) as [|t|l]; [reflexivity| |reflexivity].
    exfalso. apply (Hno t). reflexivity.
  - intros t Hc Hm Hd. unfold whole_year, created_date.
    rewrite mkdate_jan1 by lia. rewrite Hc. simpl.
    unfold date_le. cbn [year month day].
    destruct (dt_date t) as [yy mm dd]. cbn [year month day] in *.
    destruct (Z.ltb_spec 9999 yy); destruct (Z.eqb_spec 9999 yy);
      destruct (Z.ltb_spec 1 mm); destruct (Z.eqb_spec 1 mm);
      destruct (Z.leb_spec 1 dd); destruct (Z.ltb_spec yy 9999);
      simpl; try reflexivity; lia.
Qed.

(** ** Bounds of the weekly mean *)

Lemma filter_r_kept {A} (p : A -> result bool) (l : list A) : forall l',
  filter_r p l = Ok l' -> Forall (fun x => p x = Ok true) l'.
Proof.
  induction l as [|x r IH]; simpl; intros l' H.
  - injection H as <-. constructor.
  - destruct (p x) as [b|e] eqn:Hp; simpl in H; [|discriminate].
    destruct (filter_r p r) as [lr|e]; simpl in H; [|discriminate].
    injection H as <-. destruct b; [constructor|]; auto.
Qed.

Lemma whole_year_created y c b :
  whole_year y c = Ok b -> exists t, created c = One t.
Proof.
  unfold whole_year, created_date.
  destruct (mkdate y 1 1); simpl; [|discriminate].
  destruct (created c) as [|t|l]; simpl; [discriminate| |discriminate].
  eauto.
Qed.

Lemma counter_update_positive {K} (eqb : K -> K -> bool) k n counter :
  1 <= n ->
  Forall (fun v => 1 <= v) (values counter) ->
  Forall (fun v => 1 <= v) (values (counter_update eqb k n counter)).
Proof.
  intros Hn. unfold values.
  induction counter as [|[k' v] r IH]; simpl; intros H.
  - constructor; [assumption|constructor].
  - apply Forall_cons in H as [Hv Hr].
    destruct (eqb k' k); simpl; constructor; auto; lia.
Qed.

Lemma counter_update_nonempty {K} (eqb : K -> K -> bool) k n counter :
  counter_update eqb k n counter <> [].
Proof. destruct counter as [|[k' v] r]; simpl; [|destruct (eqb k' k)]; discriminate. Qed.

Lemma do_count_from_positive {K K'} (eqb : K' -> K' -> bool) (fn : K -> K')
    (grouped : list (K * list Commit)) : forall counter,
  Forall (fun g => snd g <> []) grouped ->
  Forall (fun v => 1 <= v) (values counter) ->
  Forall (fun v => 1 <= v) (values (do_count_from eqb fn grouped counter)).
Proof.
  induction grouped as [|[k cs] r IH]; intros counter Hg Hc; simpl.
  - assumption.
  - apply Forall_cons in Hg as [Hcs Hr]. apply IH; [assumption|].
    apply counter_update_positive; [|assumption].
    simpl in Hcs. destruct cs; [contradiction|simpl; lia].
Qed.

Lemma do_count_from_nonempty {K K'} (eqb : K' -> K' -> bool) (fn : K -> K')
    (grouped : list (K * list Commit)) : forall counter,
  grouped <> [] \/ counter <> [] ->
  do_count_from eqb fn grouped counter <> [].
Proof.
  induction grouped as [|[k cs] r IH]; intros counter H; simpl.
  - destruct H; [contradiction|assumption].
  - apply IH. right. apply counter_update_nonempty.
Qed.

Lemma sum_at_least_length (l : list Z) :
  Forall (fun v => 1 <= v) l -> Z.of_nat (length l) <= sum_Z l.
Proof.
  unfold sum_Z. induction l as [|x l IH]; intros H; [simpl; lia|].
  apply Forall_cons in H as [Hx Hl]. specialize (IH Hl).
  cbn [length fold_right]. lia.
Qed.

(** X15. When the weekly-mean query finds at least one commit of the
    authors in the year, it returns without raising, and the mean it
    prints is at least 1 and at most the number of commits found. *)
Theorem weekly_mean_bounds
    (commits : list Commit) (substring : pystr) (y : Z)
    (authors : list pystr) (found : list Commit) :
  get_authors commits substring = Ok authors ->
  iterate_over commits [whole_year y; only_authors authors] = Ok found ->
  found <> [] ->
  exists r,
    get_average_count_by_author_in_year commits substring y = Ok r
    /\ 1 <= r <= Z.of_nat (length found).
Proof.
  intros Hauth Hit Hne.
  unfold get_average_count_by_author_in_year. rewrite Hauth. simpl.
  rewrite Hit. simpl.
  assert (Hkey : Forall (fun c => week_key c = Ok (week_of c)) found).
  { apply filter_r_kept in Hit. eapply Forall_impl; [exact Hit|].
    intros c Hp. simpl in Hp.
    destruct (whole_year y c) as [b|e] eqn:Hw; [|discriminate].
    destruct (whole_year_created y c b Hw) as [t Ht].
    apply (week_key_spec c t Ht). }
  pose proof (group_by_from_groups Z Z.eqb week_of Z.eqb_eq week_key found [] []
                Hkey (NoDup_nil_2) (fun x Hx => False_ind _ (proj1 (elem_of_nil x) Hx)))
    as Hg.
  unfold group_by. simpl in Hg. rewrite Hg. simpl.
  set (keys := fold_left (fun ks k => add_key Z.eqb k ks) (map week_of found) []).
  set (grouped := map (fun k => (k, List.filter (fun c => week_of c =? k) found)) keys).
  assert (Hnd : NoDup keys).
  { apply (first_seen_from_NoDup Z Z.eqb Z.eqb_eq). apply NoDup_nil_2. }
  assert (Hcov : forall c, c ∈ found -> week_of c ∈ keys).
  { intros c Hc. apply (first_seen_from_elem Z Z.eqb Z.eqb_eq). right.
    apply list_elem_of_fmap. exists c. auto. }
  assert (Hsum : sum_Z (values (do_count Z.eqb id grouped))
                 = Z.of_nat (length found)).
  { unfold do_count. rewrite do_count_from_total. simpl.
    unfold grouped. rewrite map_map. simpl.
    apply (groups_cover Z Z.eqb week_of Z.eqb_eq); assumption. }
  assert (Hpos : Forall (fun v => 1 <= v) (values (do_count Z.eqb id grouped))).
  { apply do_count_from_positive; [|constructor].
    unfold grouped. apply Forall_forall. intros g Hgin.
    apply list_elem_of_fmap in Hgin as (k & -> & Hk). simpl.
    apply (first_seen_from_elem Z Z.eqb Z.eqb_eq) in Hk as [Hk|Hk];
      [inversion Hk|].
    apply list_elem_of_fmap in Hk as (c & -> & Hc).
    intros Hnil.
    assert (Hin : In c (List.filter (fun c0 => week_of c0 =? week_of c) found)).
    { apply filter_In. split; [apply list_elem_of_In, Hc|apply Z.eqb_refl]. }
    rewrite Hnil in Hin. inversion Hin. }
  assert (Hcnt : do_count Z.eqb id grouped <> []).
  { apply do_count_from_nonempty. left. unfold grouped.
    destruct found as [|c0 r0]; [contradiction|].
    assert (Hk : week_of c0 ∈ keys) by (apply Hcov; left).
    destruct keys; [inversion Hk|discriminate]. }
  pose proof (sum_at_least_length _ Hpos) as Hlen.
  unfold mean.
  destruct (values (do_count Z.eqb id grouped)) as [|v vs] eqn:Hv.
  - exfalso. apply Hcnt. unfold values in Hv.
    destruct (do_count Z.eqb id grouped); [reflexivity|discriminate].
  - exists (int (Qmake (sum_Z (v :: vs)) (Pos.of_nat (length (v :: vs))))).
    split; [reflexivity|].
    unfold int. cbn [Qnum Qden].
    set (n := length (v :: vs)) in *.
    assert (Hn : (1 <= n)%nat) by (unfold n; simpl; lia).
    assert (Hden : Z.pos (Pos.of_nat n) = Z.of_nat n).
    { rewrite <- (Nat2Pos.id n) at 2 by lia. rewrite positive_nat_Z. reflexivity. }
    rewrite Hden. rewrite Hsum in *.
    split.
    + apply Z.quot_le_lower_bound; lia.
    + apply Z.quot_le_upper_bound; nia.
Qed.

Lemma weekly_mean_bounds_witness :
  exists r,
    get_average_count_by_author_in_year ten_commits (py "alice") 2023 = Ok r
    /\ 1 <= r <= Z.of_nat (length (matching ten_commits [py "alice"] 2023)).
Proof.
  apply (weekly_mean_bounds ten_commits (py "alice") 2023 [py "alice"]
           (matching ten_commits [py "alice"] 2023)).
  - vm_compute. reflexivity.
  - vm_compute. reflexivity.
  - vm_compute. discriminate.
Defined.

(** ** Searching the messages *)

Lemma contains_empty s : contains [] s = true.
Proof. destruct s; reflexivity. Qed.

(** X16. On a store whose commits all have a message, [has_message]
    returns a count that is at most the size of the store; a search text
    that is empty after lowering, as the empty string is, counts every
    commit. *)
Theorem has_message_counts
    (lower : pystr -> pystr) (commits : list Commit) (search : pystr) :
  Forall (fun c => exists m, message c = Some m) commits ->
  exists n,
    has_message lower commits search = Ok n
    /\ (n <= length commits)%nat
    /\ (lower search = [] -> n = length commits).
Proof.
  intros Hall. unfold has_message, iterate_over.
  induction commits as [|c r IH]; simpl.
  - exists 0%nat. auto.
  - apply Forall_cons in Hall as [[m Hm] Hr].
    destruct (IH Hr) as (n & Hn & Hle & Hall').
    destruct (filter_r _ r) as [found|e]; simpl in Hn; [|discriminate].
    injection Hn as <-.
    unfold in_message at 1. rewrite Hm. simpl.
    destruct (contains (lower search) (lower m)) eqn:E; simpl.
    + exists (S (length found)). split; [reflexivity|]. split; [lia|].
      intros H. rewrite (Hall' H). reflexivity.
    + exists (length found). split; [reflexivity|]. split; [lia|].
      intros H. rewrite H, contains_empty in E. discriminate.
Qed.

Lemma has_message_counts_witness :
  exists n,
    has_message ascii_lower two_store [] = Ok n
    /\ (n <= length two_store)%nat
    /\ (ascii_lower [] = [] -> n = length two_store).
Proof.
  apply (has_message_counts ascii_lower two_store []).
  repeat constructor; eexists; reflexivity.
Defined.

(** X17. When some commit of the store has no message, [has_message]
    raises [AttributeError] whatever the search text is. *)
Theorem has_message_needs_every_message
    (lower : pystr -> pystr) (commits : list Commit) (search : pystr)
    (c : Commit) :
  c ∈ commits ->
  message c = None ->
  has_message lower commits search = Raise AttributeError.
Proof.
  intros Hin Hc. unfold has_message, iterate_over.
  assert (H : filter_r (passes [in_message lower search]) commits
              = Raise AttributeError).
  { induction commits as [|c' r IH]; [inversion Hin|]. simpl.
    unfold in_message at 1.
    apply elem_of_cons in Hin as [<-|Hin].
    - rewrite Hc. reflexivity.
    - specialize (IH Hin). simpl in IH.
      destruct (message c') as [m|]; simpl; [|reflexivity].
      rewrite IH. destruct (contains _ _); reflexivity. }
  rewrite H. reflexivity.
Qed.

Lemma has_message_needs_every_message_witness :
  has_message ascii_lower (two_store ++ [new_commit (py "f00")]) (py "fix")
  = Raise AttributeError.
Proof.
  apply (has_message_needs_every_message ascii_lower
           (two_store ++ [new_commit (py "f00")]) (py "fix")
           (new_commit (py "f00"))).
  - apply elem_of_app. right. apply list_elem_of_singleton. reflexivity.
  - reflexivity.
Defined.

(** ** Showing the first commits *)

Lemma show_from_past_stop commits : forall idx z,
  z < Z.of_nat idx ->
  show_from idx commits (Some z) = show_from idx commits None.
Proof.
  induction commits as [|c r IH]; intros idx z H; simpl; [reflexivity|].
  destruct (Z.eqb_spec z (Z.of_nat idx)); [lia|].
  rewrite IH by lia. reflexivity.
Qed.

Lemma show_from_until_stop commits : forall idx z,
  Z.of_nat idx <= z ->
  show_from idx commits (Some z)
  = show_from idx (take (Z.to_nat z - idx + 1) commits) None.
Proof.
  induction commits as [|c r IH]; intros idx z H; simpl.
  - rewrite take_nil. reflexivity.
  - replace (Z.to_nat z - idx + 1)%nat with (S (Z.to_nat z - idx)) by lia.
    simpl. f_equal. f_equal. f_equal.
    destruct (Z.eqb_spec z (Z.of_nat idx)) as [->|Hne].
    + rewrite Nat2Z.id, Nat.sub_diag. rewrite take_0. reflexivity.
    + rewrite IH by lia. f_equal. f_equal. lia.
Qed.

Lemma show_from_length commits : forall idx,
  length (show_from idx commits None) = (3 * length commits)%nat.
Proof.
  induction commits as [|c r IH]; intros idx; simpl; [reflexivity|].
  rewrite IH. lia.
Qed.

Lemma show_from_displays commits : forall idx,
  show_from idx commits None
  = concat (imap (fun i c => display (idx + i) c) commits).
Proof.
  induction commits as [|c r IH]; intros idx; [reflexivity|].
  cbn [show_from stop_is]. rewrite imap_cons. cbn [concat].
  rewrite Nat.add_0_r. f_equal. rewrite IH. f_equal.
  apply imap_ext. intros i x _. simpl. f_equal. lia.
Qed.

(** X18. [show_top_n_commits] with a stop of at least 1 shows the first
    [stop] commits (all of them when there are fewer); with a stop of 0
    or below it never stops and shows every commit, like no stop at all.
    What is shown is [display] of each commit in store order, numbered
    from 1; each commit makes three [print] calls, whatever the number of
    lines of its message. *)
Theorem show_top_n_commits_stop (commits : list Commit) (z : Z) :
  show_top_n_commits commits (Some z)
  = show_top_n_commits
      (if 1 <=? z then take (Z.to_nat z) commits else commits) None
  /\ show_top_n_commits commits None
     = concat (imap (fun i c => display (S i) c) commits)
  /\ length (show_top_n_commits commits None) = (3 * length commits)%nat.
Proof.
  unfold show_top_n_commits.
  split; [|split; [apply show_from_displays|apply show_from_length]].
  destruct (Z.leb_spec 1 z).
  - rewrite show_from_until_stop by lia. f_equal. f_equal. lia.
  - apply show_from_past_stop. lia.
Qed.

(** ** The file set of [main] *)

Lemma heads_some {A} (ls : list (list A)) :
  Forall (fun l => l <> []) ls ->
  exists hs, heads ls = Some hs
    /\ forall x, x ∈ hs <-> exists l, l ∈ ls /\ head l = Some x.
Proof.
  induction ls as [|l r IH]; intros H; simpl.
  - exists []. split; [reflexivity|]. intros x. split.
    + intros Hx. inversion Hx.
    + intros (l & Hl & _). inversion Hl.
  - apply Forall_cons in H as [Hl Hr].
    destruct (IH Hr) as (hs & -> & Hmem).
    destruct l as [|x0 l]; [contradiction|].
    exists (x0 :: hs). split; [reflexivity|]. intros x.
    rewrite elem_of_cons, Hmem. split.
    + intros [->|(l' & Hl' & Hh)].
      * exists (x0 :: l). split; [left|reflexivity].
      * exists l'. split; [right|]; assumption.
    + intros (l' & Hl' & Hh). apply elem_of_cons in Hl' as [->|Hl'].
      * left. simpl in Hh. congruence.
      * right. exists l'. auto.
Qed.

Lemma heads_none {A} (ls : list (list A)) :
  Exists (fun l => l = []) ls -> heads ls = None.
Proof.
  induction 1 as [l r H|l r H IH]; simpl.
  - rewrite H. reflexivity.
  - rewrite IH. destruct l; reflexivity.
Qed.

Lemma to_set_from_elem l : forall seen x,
  x ∈ fold_left (fun seen a => add_once a seen) l seen <-> x ∈ seen \/ x ∈ l.
Proof.
  induction l as [|a l IH]; intros seen x; simpl.
  - split; [auto|]. intros [H|H]; [assumption|inversion H].
  - rewrite IH, add_once_elem, elem_of_cons. tauto.
Qed.

Lemma to_set_elem l x : x ∈ to_set l <-> x ∈ l.
Proof.
  unfold to_set. rewrite to_set_from_elem. split; [|auto].
  intros [H|H]; [inversion H|assumption].
Qed.

Lemma to_set_NoDup l : NoDup (to_set l).
Proof.
  unfold to_set. assert (H : NoDup (@nil pystr)) by constructor.
  revert H. generalize (@nil pystr).
  induction l as [|a l IH]; intros seen H; simpl; [assumption|].
  apply IH, add_once_NoDup, H.
Qed.

(** X19. The file set of [main] cannot be built for a store in which
    every commit lists two or more files: the transposed lists are then
    two or more arguments to [set], and that is a [TypeError]. *)
Theorem main_files_type_error (commits : list Commit) :
  commits <> [] ->
  Forall (fun c => (2 <= length (files c))%nat) commits ->
  main_files commits = Raise TypeError.
Proof.
  intros Hne Hall. unfold main_files.
  assert (Hls : Forall (fun l : list pystr => (2 <= length l)%nat)
                  (map files commits)).
  { apply Forall_forall. intros l Hl.
    apply list_elem_of_fmap in Hl as (c & -> & Hc).
    apply (proj1 (Forall_forall _ _) Hall c Hc). }
  destruct (map files commits) as [|l0 ls] eqn:E.
  { destruct commits; [contradiction|discriminate]. }
  clear E Hall Hne. unfold zip_star.
  assert (H1 : Forall (fun l : list pystr => l <> []) (l0 :: ls)).
  { eapply Forall_impl; [exact Hls|]. intros l Hl ->. simpl in Hl. lia. }
  assert (H2 : Forall (fun l : list pystr => l <> [])
                 (map (@List.tl pystr) (l0 :: ls))).
  { apply Forall_forall. intros l Hl.
    apply list_elem_of_fmap in Hl as (l' & -> & Hl').
    pose proof (proj1 (Forall_forall _ _) Hls l' Hl') as Hlen.
    destruct l' as [|a [|b l']]; simpl in *; [lia|lia|discriminate]. }
  destruct (heads_some _ H1) as (hs1 & Hh1 & _).
  destruct (heads_some _ H2) as (hs2 & Hh2 & _).
  apply Forall_cons in Hls as [Hl0 _].
  destruct l0 as [|a [|b l0]]; [simpl in Hl0; lia|simpl in Hl0; lia|].
  cbn [length zip_star_go]. rewrite Hh1, Hh2. reflexivity.
Qed.

Lemma main_files_type_error_witness :
  main_files [set_files [py "a.py"; py "b.py"] (new_commit (py "c1"));
              set_files [py "a.py"; py "c.py"; py "d.py"] (new_commit (py "c2"))]
  = Raise TypeError.
Proof.
  apply (main_files_type_error
           [set_files [py "a.py"; py "b.py"] (new_commit (py "c1"));
            set_files [py "a.py"; py "c.py"; py "d.py"] (new_commit (py "c2"))]).
  - discriminate.
  - repeat constructor.
Defined.

(** X20. For a store in which every commit lists at least one file and
    some commit lists exactly one, the file set of [main] holds the first
    file of every commit and no other file: each non-empty first entry
    once. *)
Theorem main_files_first_entries (commits : list Commit) :
  Forall (fun c => files c <> []) commits ->
  Exists (fun c => length (files c) = 1%nat) commits ->
  exists fs,
    main_files commits = Ok fs
    /\ NoDup fs
    /\ forall f, f ∈ fs
         <-> f <> [] /\ exists c, c ∈ commits /\ head (files c) = Some f.
Proof.
  intros Hall Hone. unfold main_files.
  assert (H1 : Forall (fun l : list pystr => l <> []) (map files commits)).
  { apply Forall_forall. intros l Hl.
    apply list_elem_of_fmap in Hl as (c & -> & Hc).
    apply (proj1 (Forall_forall _ _) Hall c Hc). }
  assert (H2 : Exists (fun l : list pystr => l = [])
                 (map (@List.tl pystr) (map files commits))).
  { apply Exists_exists in Hone as (c & Hc & Hlen).
    apply Exists_exists. exists (List.tl (files c)). split.
    - apply list_elem_of_fmap. exists (files c). split; [reflexivity|].
      apply list_elem_of_fmap. exists c. auto.
    - destruct (files c) as [|a [|b l]]; simpl in *; [reflexivity|reflexivity|lia]. }
  destruct (heads_some _ H1) as (hs & Hh & Hmem).
  assert (Hz : zip_star (map files commits) = [hs]).
  { unfold zip_star.
    destruct (map files commits) as [|l0 ls] eqn:E.
    { apply Exists_exists in H2 as (l & Hl & _). inversion Hl. }
    apply Forall_cons in H1 as [Hl0 _].
    destruct l0 as [|a l0]; [contradiction|].
    cbn [length zip_star_go]. rewrite Hh. f_equal.
    destruct (length l0); [reflexivity|].
    cbn [zip_star_go]. rewrite (heads_none _ H2). reflexivity. }
  rewrite Hz. simpl. eexists. split; [reflexivity|]. split.
  - apply to_set_NoDup.
  - intros f. rewrite to_set_elem, list_elem_of_In, filter_In, <- list_elem_of_In.
    rewrite to_set_elem, Hmem. split.
    + intros [(l & Hl & Hhead) Hf]. split.
      * intros ->. simpl in Hf. discriminate.
      * apply list_elem_of_fmap in Hl as (c & -> & Hc). exists c. auto.
    + intros [Hf (c & Hc & Hhead)]. split.
      * exists (files c). split; [|assumption].
        apply list_elem_of_fmap. exists c. auto.
      * destruct (pystr_eqb f []) eqn:E; [|reflexivity].
        apply pystr_eqb_eq in E. contradiction.
Qed.

Lemma main_files_first_entries_witness :
  exists fs,
    main_files two_store = Ok fs
    /\ NoDup fs
    /\ forall f, f ∈ fs
         <-> f <> [] /\ exists c, c ∈ two_store /\ head (files c) = Some f.
Proof.
  apply (main_files_first_entries two_store).
  - repeat constructor; discriminate.
  - vm_compute. apply Exists_cons. right. apply Exists_cons. left. reflexivity.
Defined.

(** ** The argument vector of the per-commit commands *)

Lemma split_ws_go_word s : forall acc,
  Forall (fun x => isspace x = false) s ->
  acc ++ s <> [] ->
  split_ws_go (rev acc) s = [acc ++ s].
Proof.
  induction s as [|c s IH]; intros acc Hs Hne; simpl.
  - rewrite app_nil_r in *. rewrite rev_involutive.
    destruct (rev acc) eqn:E; [|reflexivity].
    exfalso. apply Hne. rewrite <- (rev_involutive acc), E. reflexivity.
  - apply Forall_cons in Hs as [Hc Hs]. rewrite Hc.
    specialize (IH (acc ++ [c])). rewrite rev_app_distr in IH. simpl in IH.
    rewrite IH; [rewrite <- app_assoc; reflexivity|assumption|].
    rewrite <- app_assoc. simpl. destruct acc; discriminate.
Qed.

(** X21. The command line of a per-commit command is cut at whitespace
    and nothing else, so the format argument reaches the program with its
    double quotes, and the id is cut at whitespace too: an id without
    whitespace is the one last argument, and the empty id adds no
    argument at all, so the command runs without a revision. *)
Theorem commit_commands_argv (c : Commit) :
  argv (PerCommit CMD_GET_COMMIT_FILES) (Some c)
  = Ok ([py "git"; py "diff-tree"; py "--no-commit-id"; py "--name-only";
         py "-r"] ++ split_ws (cid c))
  /\ argv (PerCommit CMD_GET_COMMIT_AUTHOR) (Some c)
     = Ok ([py "git"; py "show"; py "-s";
            py "--format=" ++ [DQUOTE] ++ py "%ae" ++ [DQUOTE]]
           ++ split_ws (cid c))
  /\ argv (PerCommit CMD_GET_COMMIT_DATE) (Some c)
     = Ok ([py "git"; py "show"; py "-s";
            py "--format=" ++ [DQUOTE] ++ py "%ci" ++ [DQUOTE]]
           ++ split_ws (cid c))
  /\ argv (PerCommit CMD_GET_COMMIT_MESSAGE) (Some c)
     = Ok ([py "git"; py "show"; py "-s";
            py "--format=" ++ [DQUOTE] ++ py "%B" ++ [DQUOTE]]
           ++ split_ws (cid c))
  /\ (cid c = [] -> split_ws (cid c) = [])
  /\ (cid c <> [] -> Forall (fun x => isspace x = false) (cid c) ->
      split_ws (cid c) = [cid c]).
Proof.
  split; [reflexivity|]. split; [reflexivity|]. split; [reflexivity|].
  split; [reflexivity|]. split.
  - intros ->. reflexivity.
  - intros Hne Hall. apply (split_ws_go_word (cid c) [] Hall). exact Hne.
Qed.

(** ** The file-name filters of [main] *)

Lemma startswith_skip x b s t :
  s ∉ x -> startswith x (b ++ s :: t) = startswith x b.
Proof.
  revert b. induction x as [|a x IH]; intros b Hs; [reflexivity|].
  destruct b as [|c b]; simpl.
  - destruct (N.eqb_spec a s) as [->|_]; [|reflexivity].
    exfalso. apply Hs. left.
  - rewrite IH; [reflexivity|]. intros H. apply Hs. right. assumption.
Qed.

Lemma join_snoc sep init b :
  init <> [] -> join sep (init ++ [b]) = join sep init ++ sep ++ b.
Proof.
  induction init as [|p r IH]; intros H; [contradiction|].
  destruct r as [|q r]; [reflexivity|].
  change (join sep ((p :: q :: r) ++ [b]))
    with (p ++ sep ++ join sep ((q :: r) ++ [b])).
  rewrite IH by discriminate.
  change (join sep (p :: q :: r)) with (p ++ sep ++ join sep (q :: r)).
  rewrite <- !app_assoc. reflexivity.
Qed.

(** A path is its last component, or ends with a slash and its last
    component. *)
Lemma basename_frame p :
  p = basename p \/ exists pre, p = pre ++ SLASH :: basename p.
Proof.
  unfold basename.
  pose proof (join_split_on SLASH p) as Hj.
  pose proof (split_on_nonempty SLASH p) as Hne.
  destruct (exists_last Hne) as (init & b & E). rewrite E in *.
  rewrite List.last_last.
  destruct init as [|i0 init].
  - left. simpl in Hj. congruence.
  - right. rewrite join_snoc in Hj by discriminate.
    eexists. rewrite <- Hj. reflexivity.
Qed.

Lemma endswith_basename f suf :
  SLASH ∉ suf -> endswith (basename f) suf = endswith f suf.
Proof.
  intros Hs. unfold endswith.
  destruct (basename_frame f) as [E|(pre & E)].
  - rewrite <- E. reflexivity.
  - rewrite E at 2. rewrite rev_app_distr. simpl. rewrite <- app_assoc. simpl.
    rewrite startswith_skip; [reflexivity|].
    intros H. apply Hs. apply list_elem_of_In, in_rev, list_elem_of_In, H.
Qed.

(** X22. For an extension without a slash, the extension filter of [main]
    accepts exactly the commits that the file-name filter accepts for the
    name made of a dot and the extension: taking the base name of a path
    first changes nothing. *)
Theorem extension_filter_is_name_filter (ext : pystr) (c : Commit) :
  SLASH ∉ ext ->
  edited_specific_extension ext c = edited_file_named (py "." ++ ext) c.
Proof.
  intros Hs. unfold edited_specific_extension, edited_file_named.
  induction (files c) as [|f r IH]; cbn [existsb]; [reflexivity|].
  rewrite IH. f_equal. apply endswith_basename.
  intros H. apply elem_of_cons in H as [H|H]; [discriminate|contradiction].
Qed.

Lemma extension_filter_is_name_filter_witness :
  edited_specific_extension (py "py")
    (set_files [py "docs/py"; py "src/main.py"] (new_commit (py "c1")))
  = edited_file_named (py ".py")
      (set_files [py "docs/py"; py "src/main.py"] (new_commit (py "c1"))).
Proof.
  apply (extension_filter_is_name_filter (py "py")
           (set_files [py "docs/py"; py "src/main.py"] (new_commit (py "c1")))).
  intros H. vm_compute in H.
  repeat (apply elem_of_cons in H as [H|H]; [discriminate|]).
  inversion H.
Defined.

(** ** Removing the quotes *)

Lemma drop_while_fixed {A} (p : A -> bool) (l : list A) :
  (forall x, head l = Some x -> p x = false) -> drop_while p l = l.
Proof.
  destruct l as [|a l]; intros H; simpl; [reflexivity|].
  rewrite (H a eq_refl). reflexivity.
Qed.

Lemma strip_by_fixed p s :
  (forall x, head s = Some x -> p x = false) ->
  (forall x, last s = Some x -> p x = false) ->
  strip_by p s = s.
Proof.
  intros Hh Hl. unfold strip_by.
  rewrite (drop_while_fixed p s Hh).
  rewrite drop_while_fixed; [apply rev_involutive|].
  intros x Hx. rewrite head_rev in Hx. auto.
Qed.

(** X23. [chomp_quotes] removes double quotes, and only at the two ends:
    the line is the result between two runs of double quotes; the result
    neither starts nor ends with a double quote, so quotes inside stay
    and a second application changes nothing. *)
Theorem chomp_quotes_frame (line : pystr) :
  (exists pre suf,
     line = pre ++ chomp_quotes line ++ suf
     /\ Forall (fun x => x = DQUOTE) pre /\ Forall (fun x => x = DQUOTE) suf)
  /\ head (chomp_quotes line) <> Some DQUOTE
  /\ last (chomp_quotes line) <> Some DQUOTE
  /\ chomp_quotes (chomp_quotes line) = chomp_quotes line.
Proof.
  split; [|split; [|split]].
  - unfold chomp_quotes.
    destruct (strip_by_frame (N.eqb DQUOTE) line) as (pre & suf & E & H1 & H2).
    exists pre, suf. split; [exact E|].
    split; (eapply Forall_impl; [eassumption|]); intros x Hx;
      apply N.eqb_eq in Hx; congruence.
  - apply chomp_quotes_ends.
  - apply chomp_quotes_ends.
  - unfold chomp_quotes at 1. apply strip_by_fixed; intros x Hx.
    + apply (strip_by_head _ _ _ Hx).
    + apply (strip_by_last _ _ _ Hx).
Qed.

(** ** A list of line transforms *)

Lemma map_r_fused {A B C} (f : A -> result B) (g : B -> result C) (l : list A) :
  same_outcome (let! l' := map_r f l in map_r g l')
    (map_r (fun x => let! y := f x in g y) l).
Proof.
  induction l as [|x l IH]; simpl; [reflexivity|].
  destruct (f x) as [y|e]; simpl; [|exact I].
  destruct (map_r f l) as [l'|e]; simpl in *.
  - destruct (g y) as [z|e]; simpl; [|exact I].
    destruct (map_r g l') as [l''|e];
      destruct (map_r (fun x0 => let! y0 := f x0 in g y0) l) as [m|e'];
      simpl in *; try contradiction; [congruence|exact I].
  - destruct (g y) as [z|e']; simpl; [|exact I].
    destruct (map_r (fun x0 => let! y0 := f x0 in g y0) l) as [m|e''];
      simpl in *; [contradiction|exact I].
Qed.

(** X24. A list of two line transforms, each mapped over all lines before
    the next starts, gives [run_cmd] the same lines as the one transform
    that chains them on each line; when a transform raises, both raise. *)
Theorem two_line_transforms_chain
    (exec : list pystr -> completed) {A B C : Type} (cmd : cmd_t)
    (args : option Commit) (f : pystr -> result A) (g : A -> result B)
    (whole : list B -> C) (w : world) :
  same_outcome
    (fst (run_cmd exec cmd args (stage f (stage g nostage)) whole w))
    (fst (run_cmd exec cmd args
            (stage (fun line => let! y := f line in g y) nostage) whole w))
  /\ snd (run_cmd exec cmd args (stage f (stage g nostage)) whole w)
     = snd (run_cmd exec cmd args
              (stage (fun line => let! y := f line in g y) nostage) whole w).
Proof.
  unfold run_cmd.
  destruct (argv cmd args) as [av|e]; [|split; [exact I|reflexivity]].
  destruct (utf8_decode _) as [text|]; [|split; [exact I|reflexivity]].
  split; [|reflexivity]. simpl.
  pose proof (map_r_fused f g (split_on NEWLINE (strip text))) as H.
  destruct (map_r f _) as [l'|e]; simpl in *.
  - destruct (map_r g l') as [l''|e];
      destruct (map_r (fun x => let! y := f x in g y) _) as [m|e'];
      simpl in *; try contradiction; [congruence|exact I].
  - destruct (map_r (fun x => let! y := f x in g y) _) as [m|e'];
      simpl in *; [contradiction|exact I].
Qed.
